(** * nntpserver: a shallow embedding of the NNTP protocol engine

    The development follows the Go package [nntpserver]: the error
    values, the range parser, the header formatter, the command handlers,
    the dispatcher and the per-connection loop.  Handlers are written in a
    small state-and-panic monad over the session, the connection, the log
    and the state of the storage back ends. *)

From Stdlib Require Import ZArith Lia Ascii String List DecimalString DecimalPos.
From stdpp Require Import gmap strings list fin_maps sorting.

Local Open Scope Z_scope.

(* ===================================================================== *)
(** ** Strings: the functions of package [strings] the engine uses       *)
(* ===================================================================== *)

Module Strings.

(** [strings.Split(s, sep)] for a one-byte separator: the fields between
    the separators, never an empty slice (an empty [s] gives one empty
    field). *)
Fixpoint Split (s : string) (sep : ascii) : list string :=
  match s with
  | EmptyString => [EmptyString]
  | String c r =>
      if Ascii.eqb c sep then EmptyString :: Split r sep
      else match Split r sep with
           | [] => [String c EmptyString]
           | f :: fs => String c f :: fs
           end
  end.

(** The text before the first [sep] of [s], and the text after it when
    there is one ([strings.Index] followed by the two slices). *)
Fixpoint cut (s : string) (sep : ascii) : string * option string :=
  match s with
  | EmptyString => (EmptyString, None)
  | String c r =>
      if Ascii.eqb c sep then (EmptyString, Some r)
      else let '(f, rest) := cut r sep in (String c f, rest)
  end.

(** [strings.SplitN(s, sep, n)] for a one-byte separator and [n >= 0]: at
    most [n] fields, the last one being the unsplit remainder. *)
Fixpoint SplitN (s : string) (sep : ascii) (n : nat) : list string :=
  match n with
  | O => []
  | S O => [s]
  | S n' =>
      match cut s sep with
      | (f, None) => [f]
      | (f, Some r) => f :: SplitN r sep n'
      end
  end.

(** Whether every byte of [s] is below [utf8.RuneSelf], 0x80. *)
Fixpoint isASCII (s : string) : bool :=
  match s with
  | EmptyString => true
  | String c r => (N_of_ascii c <? 128)%N && isASCII r
  end.

(** One byte of the ASCII path of [strings.ToLower]: the letters A to Z
    are mapped to a to z, every other byte is kept. *)
Definition lower_ascii (c : ascii) : ascii :=
  let n := N_of_ascii c in
  if ((65 <=? n) && (n <=? 90))%N then ascii_of_N (n + 32) else c.

(** The ASCII path of [strings.ToLower], byte by byte. *)
Fixpoint lowerASCII (s : string) : string :=
  match s with
  | EmptyString => EmptyString
  | String c r => String (lower_ascii c) (lowerASCII r)
  end.

(** [strings.Map(unicode.ToLower, s)]: the runes of [s], decoded from
    UTF-8, each mapped through the case tables of package [unicode].
    The engine takes this library function as given; it is what
    [strings.ToLower] returns for a text that is not all ASCII (the rune
    U+0130 becomes [i] and U+212A becomes [k], for instance). *)
Class Unicode : Type := { mapToLower : string -> string }.

(** [strings.ToLower]: a text that is all ASCII is lower-cased byte by
    byte; any other text goes through [unicode.ToLower], rune by rune. *)
Definition ToLower `{!Unicode} (s : string) : string :=
  if isASCII s then lowerASCII s else mapToLower s.

(** Whether the byte [c] occurs in [s]. *)
Fixpoint contains (s : string) (c : ascii) : bool :=
  match s with
  | EmptyString => false
  | String d r => Ascii.eqb d c || contains r c
  end.

End Strings.

(* ===================================================================== *)
(** ** Numbers: [strconv.ParseInt(s, 10, 64)] and the verb [%d]          *)
(* ===================================================================== *)

Module Strconv.

(** The two failures of [strconv]: [ErrSyntax] and [ErrRange]. *)
Inductive NumError : Type := ErrSyntax | ErrRange.

Definition MaxInt64 : Z := 9223372036854775807.
Definition maxUint64 : Z := 18446744073709551615.

(** The value of a decimal digit, when the byte is one. *)
Definition digit (c : ascii) : option Z :=
  let n := Z.of_N (N_of_ascii c) in
  if (48 <=? n) && (n <=? 57) then Some (n - 48) else None.

(** The loop of [ParseUint] at base 10 and 64 bits, [n] being the value
    read so far.  A byte that is no digit ends the loop with a syntax
    error and the value 0.  Before multiplying, [n >= cutoff] (the
    product would overflow) ends it with a range error and the largest
    value; so does a sum that wraps around. *)
Fixpoint parseUintLoop (s : string) (n : Z) : Z * option NumError :=
  match s with
  | EmptyString => (n, None)
  | String c r =>
      match digit c with
      | None => (0, Some ErrSyntax)
      | Some d =>
          if n >=? maxUint64 / 10 + 1 then (maxUint64, Some ErrRange)
          else
            let n10 := n * 10 in
            let n1 := (n10 + d) mod 2 ^ 64 in
            if (n1 <? n10) || (n1 >? maxUint64) then (maxUint64, Some ErrRange)
            else parseUintLoop r n1
      end
  end.

(** [strconv.ParseUint(s, 10, 64)]. *)
Definition ParseUint (s : string) : Z * option NumError :=
  match s with
  | EmptyString => (0, Some ErrSyntax)
  | _ => parseUintLoop s 0
  end.

(** [strconv.ParseInt(s, 10, 64)]: an optional sign, then [ParseUint].
    A syntax error gives 0; a value out of range gives the nearest bound
    together with a range error. *)
Definition ParseInt (s : string) : Z * option NumError :=
  match s with
  | EmptyString => (0, Some ErrSyntax)
  | String c r =>
      let '(neg, body) :=
        if Ascii.eqb c "+" then (false, r)
        else if Ascii.eqb c "-" then (true, r)
        else (false, s) in
      match ParseUint body with
      | (_, Some ErrSyntax) => (0, Some ErrSyntax)
      | (un, _) =>
          let cutoff := 2 ^ 63 in
          if negb neg && (un >=? cutoff) then (cutoff - 1, Some ErrRange)
          else if neg && (un >? cutoff) then (- cutoff, Some ErrRange)
          else (if neg then - un else un, None)
      end
  end.

(** The verb [%d] of package [fmt] for an integer: its decimal numeral,
    with a leading minus sign when negative. *)
Definition FormatInt (n : Z) : string := NilZero.string_of_int (Z.to_int n).

(** The value of a decimal numeral read from its first digit on, [acc]
    being the value of the digits before it. *)
Fixpoint uintValue (d : Decimal.uint) (acc : Z) : Z :=
  match d with
  | Decimal.Nil => acc
  | Decimal.D0 l => uintValue l (10 * acc)
  | Decimal.D1 l => uintValue l (10 * acc + 1)
  | Decimal.D2 l => uintValue l (10 * acc + 2)
  | Decimal.D3 l => uintValue l (10 * acc + 3)
  | Decimal.D4 l => uintValue l (10 * acc + 4)
  | Decimal.D5 l => uintValue l (10 * acc + 5)
  | Decimal.D6 l => uintValue l (10 * acc + 6)
  | Decimal.D7 l => uintValue l (10 * acc + 7)
  | Decimal.D8 l => uintValue l (10 * acc + 8)
  | Decimal.D9 l => uintValue l (10 * acc + 9)
  end.

End Strconv.

(* ===================================================================== *)
(** ** The error model                                                   *)
(* ===================================================================== *)

(** An [NNTPError] is a coded NNTP error message. *)
Record NNTPError : Type := { Code : Z; Msg : string }.

(** A Go [error] value as the engine tells them apart: a [*NNTPError],
    the end-of-stream value [io.EOF], or any other error. *)
Inductive error : Type :=
| NNTP (e : NNTPError)
| EOF
| OtherError (msg : string).

(** The result of a fallible call [(value, err)]: the value when [err] is
    [nil], the error otherwise. *)
Inductive result (A : Type) : Type :=
| Ok (a : A)
| Err (e : error).
Arguments Ok {A} a.
Arguments Err {A} e.

Definition ErrNoSuchGroup : NNTPError := {| Code := 411; Msg := "No such newsgroup" |}.
Definition ErrNoGroupSelected : NNTPError := {| Code := 412; Msg := "No newsgroup selected" |}.
Definition ErrInvalidMessageID : NNTPError := {| Code := 430; Msg := "No article with that message-id" |}.
Definition ErrInvalidArticleNumber : NNTPError := {| Code := 423; Msg := "No article with that number" |}.
Definition ErrNoCurrentArticle : NNTPError := {| Code := 420; Msg := "Current article number is invalid" |}.
Definition ErrUnknownCommand : NNTPError := {| Code := 500; Msg := "Unknown command" |}.
Definition ErrSyntax : NNTPError := {| Code := 501; Msg := "not supported, or syntax error" |}.
Definition ErrPostingNotPermitted : NNTPError := {| Code := 440; Msg := "Posting not permitted" |}.
Definition ErrPostingFailed : NNTPError := {| Code := 441; Msg := "posting failed" |}.
Definition ErrNotWanted : NNTPError := {| Code := 435; Msg := "Article not wanted" |}.
Definition ErrAuthRequired : NNTPError := {| Code := 450; Msg := "authorization required" |}.
Definition ErrAuthRejected : NNTPError := {| Code := 452; Msg := "authorization rejected" |}.
Definition ErrNotAuthenticated : NNTPError := {| Code := 480; Msg := "authentication required" |}.

(** The method [Error] of an [NNTPError]:
    [fmt.Sprintf("%d %s", e.Code, e.Msg)]. *)
Definition Error (e : NNTPError) : string :=
  Strconv.FormatInt (Code e) +:+ " " +:+ Msg e.

(* ===================================================================== *)
(** ** The data model of package [nntp]                                  *)
(* ===================================================================== *)

Module Nntp.

(** Modelled from the spec: the posting-permission flag of a group, whose
    declaration is in package [nntp], outside the engine's file
    (posting permitted / posting prohibited / posting moderated). *)
Inductive PostingStatus : Type :=
| PostingPermitted
| PostingNotPermitted
| PostingModerated.

(** Modelled from the spec: how the verb [%v] prints a posting flag in a
    [LIST ACTIVE] row (declared in package [nntp]). *)
Definition showPosting (p : PostingStatus) : string :=
  match p with
  | PostingPermitted => "y"
  | PostingNotPermitted => "n"
  | PostingModerated => "m"
  end.

(** Modelled from the spec: a newsgroup (declared in package [nntp]): its
    name and description, the article count, the low and high watermarks
    and the posting flag. *)
Record Group : Type := {
  Name : string;
  Description : string;
  Count : Z;
  Low : Z;
  High : Z;
  Posting : PostingStatus
}.

(** A body stream, forward only: the bytes it yields, and the error that
    ends it when it does not end with a clean end of stream. *)
Record Reader : Type := { data : string; readErr : option error }.

(** Modelled from the spec: an article (declared in package [nntp]):
    headers as a map from canonical names to their values, the body
    stream, and the byte and line counts. *)
Record Article : Type := {
  Header : gmap string (list string);
  Body : Reader;
  Bytes : Z;
  Lines : Z
}.

(** [textproto.MIMEHeader.Get] at a name already in canonical form: the
    first value of the header, or the empty string. *)
Definition Get (h : gmap string (list string)) (key : string) : string :=
  match h !! key with
  | Some (v :: _) => v
  | _ => ""
  end.

(** Modelled from the spec: [Article.MessageID], the first value of the
    [Message-Id] header or the empty string. *)
Definition MessageID (a : Article) : string := Get (Header a) "Message-Id".

End Nntp.

(** A [NumberedArticle] provides local sequence numbers to articles when
    listing articles in a group. *)
Record NumberedArticle : Type := { Num : Z; Article : Nntp.Article }.

(* ===================================================================== *)
(** ** The range parser                                                  *)
(* ===================================================================== *)

(** [parseRange]: [(low, high)] of a range given as [N], [N-] or [N-M].
    [strings.Split] never returns an empty slice, so [parts[0]] exists,
    and [parts[1]] exists whenever the length is not 1; the first branch
    of the match below is never taken. *)
Definition parseRange (spec : string) : Z * Z :=
  if decide (spec = "") then (0, Strconv.MaxInt64)
  else
    match Strings.Split spec "-" with
    | [] => (0, 0)
    | [p0] =>
        let '(h, err) := Strconv.ParseInt p0 in
        (0, if err is Some _ then Strconv.MaxInt64 else h)
    | p0 :: p1 :: _ =>
        let '(l, _) := Strconv.ParseInt p0 in
        let '(h, err) := Strconv.ParseInt p1 in
        (l, if err is Some _ then Strconv.MaxInt64 else h)
    end.

(* ===================================================================== *)
(** ** The header formatter                                              *)
(* ===================================================================== *)

Definition CR : string := String (ascii_of_nat 13) EmptyString.
Definition LF : string := String (ascii_of_nat 10) EmptyString.
Definition TAB : string := String (ascii_of_nat 9) EmptyString.
Definition CRLF : string := CR +:+ LF.

(** Go's order on strings, byte by byte, as [sort.Strings] uses it. *)
Definition string_le (a b : string) : Prop := String.leb a b = true.

#[global] Instance string_le_dec : RelDecision string_le.
Proof. intros a b. unfold string_le. apply _. Defined.

(** The preferred headers of [sendHeaders], in their order. *)
Definition order : list string :=
  ["Subject"; "From"; "Date"; "Message-Id"; "References"].

(** The first loop of [sendHeaders] over the keys of the header map: a
    key that [hasImportantKeys] holds is flagged there, any other key is
    appended to [keys]. *)
Definition classify (acc : gmap string bool * list string) (k : string)
  : gmap string bool * list string :=
  let '(hasImportantKeys, keys) := acc in
  match hasImportantKeys !! k with
  | Some _ => (<[k := true]> hasImportantKeys, keys)
  | None => (hasImportantKeys, keys ++ [k])
  end.

(** The lines written for one header [hdr.k] with values [hdr.v]: the
    first value [hdr.v[0]], which must exist (indexing an empty slice
    panics: [None]), then every further value. *)
Definition headerLines (k : string) (v : list string) : option (list string) :=
  match v with
  | [] => None
  | v0 :: vs =>
      Some ((k +:+ ": " +:+ v0 +:+ CRLF)
              :: map (fun v' => k +:+ ": " +:+ v' +:+ CRLF) vs)
  end.

(** The last loop of [sendHeaders]: the lines of each header of
    [newOrder] in turn; [None] when one of them panics. *)
Fixpoint writeHeaders (newOrder : list (string * list string))
  : option (list string) :=
  match newOrder with
  | [] => Some []
  | (k, v) :: rest =>
      match headerLines k v with
      | None => None
      | Some ls =>
          match writeHeaders rest with
          | None => None
          | Some ls' => Some (ls ++ ls')
          end
      end
  end.

(** [sendHeaders]: the chunks written to the dot-writer, one per
    [Fprintf] call, or [None] when the function panics.  The map is
    ranged over in the order [map_to_list] gives its keys; Go leaves that
    order unspecified, and the keys collected are sorted afterwards. *)
Definition sendHeaders (header : gmap string (list string)) : option (list string) :=
  let hasImportantKeys0 : gmap string bool :=
    foldl (fun m v => <[v := false]> m) ∅ order in
  let '(hasImportantKeys, keys0) :=
    foldl classify (hasImportantKeys0, []) (map_to_list header).*1 in
  let keys := merge_sort string_le keys0 in
  let newOrder :=
    omap (fun k => if default false (hasImportantKeys !! k)
                   then Some (k, default [] (header !! k)) else None) order
    ++ map (fun k => (k, default [] (header !! k))) keys in
  writeHeaders newOrder.

(* ===================================================================== *)
(** ** The connection and the log                                        *)
(* ===================================================================== *)

(** What a handler sends through a [textproto.Conn]: a line written by
    [PrintfLine], or the bytes written to a [DotWriter] from its creation
    to its [Close] (the writer stuffs dots, normalises line ends and
    appends the terminating line). *)
Inductive Wire : Type :=
| Line (s : string)
| DotBlock (payload : string).

(** The connection as the engine sees it: the lines of the client still
    to be read, and what has been sent, oldest first.  Writing to the
    connection does not fail: [PrintfLine] and the dot-writer return no
    error. *)
Record Conn : Type := { input : list string; output : list Wire }.

(** The three messages [Process] gives to [log.Printf]. *)
Inductive LogEntry : Type :=
| LogReadError (e : error)
| LogGotCmd (cmd : list string)
| LogDispatchError (e : error).

(** [fmt] with a format and no operand: a format without a per-cent sign
    is printed as it is; one with a per-cent sign is read as verbs with
    missing operands, and [missing] stands for what [fmt] prints then. *)
Definition Sprintf0 (missing : string -> string) (format : string) : string :=
  if Strings.contains format "%" then missing format else format.

(** [textproto.Reader.DotReader], read to its end: the lines up to the
    line that is a lone dot, a leading dot of each removed, every line
    ended by a line feed; the stream ends with an error when the input
    does before the lone dot.  Returned with the input that follows. *)
Fixpoint DotReader (ls : list string) : Nntp.Reader * list string :=
  match ls with
  | [] => ({| Nntp.data := ""; Nntp.readErr := Some (OtherError "unexpected EOF") |}, [])
  | l :: rest =>
      if decide (l = ".") then ({| Nntp.data := ""; Nntp.readErr := None |}, rest)
      else
        let l' := match l with
                  | String c r => if Ascii.eqb c "." then r else l
                  | EmptyString => l
                  end in
        let '(b, rest') := DotReader rest in
        ({| Nntp.data := l' +:+ LF +:+ Nntp.data b; Nntp.readErr := Nntp.readErr b |}, rest')
  end.

(* ===================================================================== *)
(** ** The back end                                                      *)
(* ===================================================================== *)

(** The [Backend] interface.  [B] is the type of back-end values (what a
    session's [backend] field holds) and [W] the state of the storage
    behind them, which every call may read and change.  A call that
    returns [(value, error)] returns a [result]; [Authenticate] returns
    the replacement back end, if any. *)
Class Backend (B W : Type) : Type := {
  ListGroups : B -> Z -> W -> result (list Nntp.Group) * W;
  GetGroup : B -> string -> W -> result Nntp.Group * W;
  GetArticle : B -> option Nntp.Group -> string -> W -> result Nntp.Article * W;
  GetArticles : B -> option Nntp.Group -> Z -> Z -> W -> result (list NumberedArticle) * W;
  Authorized : B -> W -> bool * W;
  Authenticate : B -> string -> string -> W -> result (option B) * W;
  AllowPost : B -> W -> bool * W;
  Post : B -> Nntp.Article -> W -> option error * W
}.

(** The two library functions whose behaviour the engine takes as given:
    [textproto.Reader.ReadMIMEHeader] (the header read and the input left)
    and what [fmt] prints for a verb with a missing operand. *)
Class Textproto : Type := {
  ReadMIMEHeader : list string -> result (gmap string (list string)) * list string;
  missingOperands : string -> string
}.

(* ===================================================================== *)
(** ** Sessions and the handler monad                                    *)
(* ===================================================================== *)

Section Engine.

Context {B W : Type} `{!Backend B W} `{!Textproto} `{!Strings.Unicode}.

(** The per-connection [session]: the active back end and the selected
    group ([nil] when none).  Its [server] field never changes after
    [Process] has set it; the dispatcher takes the server as an argument
    instead. *)
Record session : Type := { backend : B; group : option Nntp.Group }.

(** Everything a handler can read or change: the session, the
    connection, the storage behind the back ends, and the log. *)
Record State : Type := {
  sess : session;
  conn : Conn;
  world : W;
  log : list LogEntry
}.

(** The outcome of running a piece of the engine: it returns a value in
    a new state, or it panics (an index out of range, a missing default
    handler). *)
Inductive Res (A : Type) : Type :=
| Done (a : A) (st : State)
| Panic.
Arguments Done {A} a st.
Arguments Panic {A}.

Definition M (A : Type) : Type := State -> Res A.

Definition ret {A} (a : A) : M A := fun st => Done a st.

Definition bind {A C} (m : M A) (k : A -> M C) : M C :=
  fun st => match m st with
            | Done a st' => k a st'
            | Panic => Panic
            end.

Definition panic {A} : M A := fun _ => Panic.

Notation "'let*' x ':=' c 'in' k" := (bind c (fun x => k))
  (at level 10, x name, c at level 100, k at level 200).
Notation "'let*' ' p ':=' c 'in' k" := (bind c (fun x => match x with p => k end))
  (at level 10, p pattern, c at level 100, k at level 200).

(** [l[i]]: the element, or a panic when [i] is out of range. *)
Definition index {A} (l : list A) (i : nat) : M A :=
  match l !! i with
  | Some x => ret x
  | None => panic
  end.

(** The state [st] with one part replaced: the selected group, the back
    end, the input left, the storage; or with more sent or logged. *)
Definition selecting (st : State) (g : option Nntp.Group) : State :=
  {| sess := {| backend := backend (sess st); group := g |};
     conn := conn st; world := world st; log := log st |}.

Definition swapping (st : State) (b : B) : State :=
  {| sess := {| backend := b; group := group (sess st) |};
     conn := conn st; world := world st; log := log st |}.

Definition sending (st : State) (ws : list Wire) : State :=
  {| sess := sess st;
     conn := {| input := input (conn st); output := output (conn st) ++ ws |};
     world := world st; log := log st |}.

Definition leaving (st : State) (rest : list string) : State :=
  {| sess := sess st;
     conn := {| input := rest; output := output (conn st) |};
     world := world st; log := log st |}.

Definition storing (st : State) (w : W) : State :=
  {| sess := sess st; conn := conn st; world := w; log := log st |}.

Definition logging (st : State) (es : list LogEntry) : State :=
  {| sess := sess st; conn := conn st; world := world st; log := log st ++ es |}.

(** Reading and writing the session's fields. *)
Definition getGroup : M (option Nntp.Group) := fun st => Done (group (sess st)) st.

Definition setGroup (g : option Nntp.Group) : M unit :=
  fun st => Done tt (selecting st g).

Definition setBackend (b : B) : M unit :=
  fun st => Done tt (swapping st b).

(** Sending [w] on the connection. *)
Definition send (w : Wire) : M unit := fun st => Done tt (sending st [w]).

(** [c.PrintfLine] with its operands already formatted into [s]. *)
Definition PrintfLine (s : string) : M unit := send (Line s).

(** A [DotWriter] opened, given [payload] and closed. *)
Definition writeDot (payload : string) : M unit := send (DotBlock payload).

(** [c.ReadLine]: the next line of the client, or the empty string with
    [io.EOF] when the client has hung up. *)
Definition ReadLine : M (string * option error) :=
  fun st => match input (conn st) with
            | [] => Done ("", Some EOF) st
            | l :: rest => Done (l, None) (leaving st rest)
            end.

(** A library reader applied to the input of the connection. *)
Definition reading {A} (f : list string -> A * list string) : M A :=
  fun st => let '(a, rest) := f (input (conn st)) in Done a (leaving st rest).

(** [log.Printf]. *)
Definition logf (e : LogEntry) : M unit := fun st => Done tt (logging st [e]).

(** A call of a method of the session's back end: the method is given
    the back-end value and the storage, and leaves the storage changed. *)
Definition call {A} (f : B -> W -> A * W) : M A :=
  fun st => let '(a, w') := f (backend (sess st)) (world st) in
            Done a (storing st w').

(** A [Handler] is a low-level protocol handler: the arguments of the
    command, then the session and the connection through the monad. *)
Definition Handler : Type := list string -> M (option error).

(** The [Server] handle: handlers dispatched by command name, and the back
    end that provides the data. *)
Record Server : Type := {
  Handlers : gmap string Handler;
  ServerBackend : B
}.

(* ===================================================================== *)
(** ** The command handlers                                              *)
(* ===================================================================== *)

(** One row of an [OVER] reply. *)
Definition overRow (a : NumberedArticle) : string :=
  let h := Nntp.Header (Article a) in
  Strconv.FormatInt (Num a) +:+ TAB +:+ Nntp.Get h "Subject" +:+ TAB
  +:+ Nntp.Get h "From" +:+ TAB +:+ Nntp.Get h "Date" +:+ TAB
  +:+ Nntp.Get h "Message-Id" +:+ TAB +:+ Nntp.Get h "References" +:+ TAB
  +:+ Strconv.FormatInt (Nntp.Bytes (Article a)) +:+ TAB
  +:+ Strconv.FormatInt (Nntp.Lines (Article a)) +:+ LF.

Definition handleOver : Handler := fun args =>
  let* g := getGroup in
  if decide (g = None) then ret (Some (NNTP ErrNoGroupSelected))
  else
    let* a0 := index args 0 in
    let '(from, to) := parseRange a0 in
    let* r := call (fun b => GetArticles b g from to) in
    match r with
    | Err e => ret (Some e)
    | Ok articles =>
        let* _ := PrintfLine "224 here it comes" in
        let* _ := writeDot (String.concat "" (map overRow articles)) in
        ret None
    end.

Definition handleListOverviewFmt : M (option error) :=
  let* _ := PrintfLine "215 Order of fields in overview database." in
  let* _ := writeDot ("Subject:" +:+ LF +:+ "From:" +:+ LF +:+ "Date:" +:+ LF
                      +:+ "Message-ID:" +:+ LF +:+ "References:" +:+ LF
                      +:+ ":bytes" +:+ LF +:+ ":lines" +:+ LF) in
  ret None.

(** What the loop of [handleList] writes for one group: its switch has a
    case for [active] and one for [newsgroups], and no default. *)
Definition listRow (ltype : string) (g : Nntp.Group) : string :=
  if decide (ltype = "active") then
    Nntp.Name g +:+ " " +:+ Strconv.FormatInt (Nntp.High g) +:+ " "
    +:+ Strconv.FormatInt (Nntp.Low g) +:+ " " +:+ Nntp.showPosting (Nntp.Posting g)
    +:+ CRLF
  else if decide (ltype = "newsgroups") then
    Nntp.Name g +:+ " " +:+ Nntp.Description g +:+ CRLF
  else "".

Definition handleList : Handler := fun args =>
  let ltype := match args with
               | a0 :: _ => Strings.ToLower a0
               | [] => "active"
               end in
  if decide (ltype = "overview.fmt") then handleListOverviewFmt
  else
    let* r := call (fun b => ListGroups b (-1)) in
    match r with
    | Err e => ret (Some e)
    | Ok groups =>
        let* _ := PrintfLine "215 list of newsgroups follows" in
        let* _ := writeDot (String.concat "" (map (listRow ltype) groups)) in
        ret None
    end.

Definition handleNewGroups : Handler := fun args =>
  let* _ := PrintfLine "231 list of newsgroups follows" in
  let* _ := PrintfLine "." in
  ret None.

Definition handleDefault : Handler := fun args =>
  ret (Some (NNTP ErrUnknownCommand)).

Definition handleQuit : Handler := fun args =>
  let* _ := PrintfLine "205 bye" in
  ret (Some EOF).

(** The status line of [GROUP], and of [LISTGROUP] without its tail. *)
Definition groupLine (g : Nntp.Group) : string :=
  "211 " +:+ Strconv.FormatInt (Nntp.Count g) +:+ " "
  +:+ Strconv.FormatInt (Nntp.Low g) +:+ " "
  +:+ Strconv.FormatInt (Nntp.High g) +:+ " " +:+ Nntp.Name g.

Definition handleGroup : Handler := fun args =>
  if decide (length args < 1)%nat then ret (Some (NNTP ErrNoSuchGroup))
  else
    let* a0 := index args 0 in
    let* r := call (fun b => GetGroup b a0) in
    match r with
    | Err e => ret (Some e)
    | Ok g =>
        let* _ := setGroup (Some g) in
        let* _ := PrintfLine (groupLine g) in
        ret None
    end.

(** The end of [handleListGroup], once [group] is known: the articles
    of [s.group] are fetched, then the status line of [group] and the
    article numbers are sent. *)
Definition listGroupArticles (g : Nntp.Group) (from to : Z) : M (option error) :=
  let* sel := getGroup in
  let* r := call (fun b => GetArticles b sel from to) in
  match r with
  | Err e => ret (Some e)
  | Ok articles =>
      let* _ := PrintfLine (groupLine g +:+ " list follows") in
      let* _ := writeDot
                  (String.concat "" (map (fun a => Strconv.FormatInt (Num a) +:+ LF) articles)) in
      ret None
  end.

Definition handleListGroup : Handler := fun args =>
  let* sel := getGroup in
  if decide ((length args < 1)%nat ∧ sel = None) then ret (Some (NNTP ErrNoGroupSelected))
  else
    let g0 := if decide (length args < 1)%nat then sel else None in
    let idxRange := match args with
                    | _ :: a1 :: _ => a1
                    | _ => "1-"
                    end in
    let '(from, to) := parseRange idxRange in
    if decide (from = 0) then ret (Some (NNTP ErrSyntax))
    else if decide (from < 1 ∨ from > to) then ret (Some (NNTP ErrSyntax))
    else
      match g0 with
      | Some g => listGroupArticles g from to
      | None =>
          let* a0 := index args 0 in
          let* r := call (fun b => GetGroup b a0) in
          match r with
          | Err e => ret (Some e)
          | Ok g =>
              let* _ := setGroup (Some g) in
              listGroupArticles g from to
          end
      end.

Definition getArticle (args : list string) : M (result Nntp.Article) :=
  let* g := getGroup in
  if decide (g = None) then ret (Err (NNTP ErrNoGroupSelected))
  else if decide (length args = 0%nat) then ret (Err (NNTP ErrNoCurrentArticle))
  else
    let* a0 := index args 0 in
    call (fun b => GetArticle b g a0).

(** [sendHeaders] into an open dot-writer: its chunks, or the panic. *)
Definition headerChunks (article : Nntp.Article) : M string :=
  match sendHeaders (Nntp.Header article) with
  | Some chunks => ret (String.concat "" chunks)
  | None => panic
  end.

Definition handleHead : Handler := fun args =>
  let* r := getArticle args in
  match r with
  | Err e => ret (Some e)
  | Ok article =>
      let* _ := PrintfLine ("221 1 " +:+ Nntp.MessageID article) in
      let* hs := headerChunks article in
      let* _ := writeDot hs in
      ret None
  end.

Definition handleBody : Handler := fun args =>
  let* r := getArticle args in
  match r with
  | Err e => ret (Some e)
  | Ok article =>
      let* _ := PrintfLine ("222 1 " +:+ Nntp.MessageID article) in
      let* _ := writeDot (Nntp.data (Nntp.Body article)) in
      ret (Nntp.readErr (Nntp.Body article))
  end.

Definition handleArticle : Handler := fun args =>
  let* r := getArticle args in
  match r with
  | Err e => ret (Some e)
  | Ok article =>
      let* _ := PrintfLine ("220 1 " +:+ Nntp.MessageID article) in
      let* hs := headerChunks article in
      let* _ := writeDot (hs +:+ LF +:+ Nntp.data (Nntp.Body article)) in
      ret (Nntp.readErr (Nntp.Body article))
  end.

Definition handlePost : Handler := fun args =>
  let* allowed := call AllowPost in
  if negb allowed then ret (Some (NNTP ErrPostingNotPermitted))
  else
    let* _ := PrintfLine "340 Go ahead" in
    let* h := reading ReadMIMEHeader in
    match h with
    | Err _ => ret (Some (NNTP ErrPostingFailed))
    | Ok header =>
        let* body := reading DotReader in
        let article := {| Nntp.Header := header; Nntp.Body := body;
                          Nntp.Bytes := 0; Nntp.Lines := 0 |} in
        let* err := call (fun b => Post b article) in
        match err with
        | Some e => ret (Some e)
        | None =>
            let* _ := PrintfLine "240 article received OK" in
            ret None
        end
    end.

Definition handleIHave : Handler := fun args =>
  let* allowed := call AllowPost in
  if negb allowed then ret (Some (NNTP ErrNotWanted))
  else
    let* a0 := index args 0 in
    let* have := call (fun b => GetArticle b None a0) in
    match have with
    | Ok _ => ret (Some (NNTP ErrNotWanted))
    | Err _ =>
        let* _ := PrintfLine "335 send it" in
        let* h := reading ReadMIMEHeader in
        match h with
        | Err _ => ret (Some (NNTP ErrPostingFailed))
        | Ok header =>
            let* body := reading DotReader in
            let article := {| Nntp.Header := header; Nntp.Body := body;
                              Nntp.Bytes := 0; Nntp.Lines := 0 |} in
            let* err := call (fun b => Post b article) in
            match err with
            | Some e => ret (Some e)
            | None =>
                let* _ := PrintfLine "235 article received OK" in
                ret None
            end
        end
    end.

Definition handleCap : Handler := fun args =>
  let* _ := PrintfLine "101 Capability list:" in
  let* allowed := call AllowPost in
  let* _ := writeDot ("VERSION 2" +:+ LF +:+ "READER" +:+ LF
                      +:+ (if allowed : bool then "POST" +:+ LF +:+ "IHAVE" +:+ LF else "")
                      +:+ "OVER" +:+ LF +:+ "XOVER" +:+ LF
                      +:+ "LIST ACTIVE NEWSGROUPS OVERVIEW.FMT" +:+ LF) in
  ret None.

Definition handleMode : Handler := fun args =>
  let* allowed := call AllowPost in
  let* _ := PrintfLine (if allowed : bool then "200 Posting allowed"
                        else "201 Posting prohibited") in
  ret None.

Definition handleAuthInfo : Handler := fun args =>
  if decide (length args < 2)%nat then ret (Some (NNTP ErrSyntax))
  else
    let* a0 := index args 0 in
    if decide (Strings.ToLower a0 ≠ "user") then ret (Some (NNTP ErrSyntax))
    else
      let* authorized := call Authorized in
      if authorized : bool then
        let* _ := PrintfLine "250 authenticated" in
        ret None
      else
        let* _ := PrintfLine "350 Continue" in
        let* '(a, _) := ReadLine in
        let parts := Strings.SplitN a " " 3 in
        let* p0 := index parts 0 in
        let* mismatch :=
          (if decide (Strings.ToLower p0 ≠ "authinfo") then ret true
           else let* p1 := index parts 1 in
                ret (bool_decide (Strings.ToLower p1 ≠ "pass"))) in
        if mismatch : bool then ret (Some (NNTP ErrSyntax))
        else
          let* user := index args 1 in
          let* pass := index parts 2 in
          let* r := call (fun b => Authenticate b user pass) in
          match r with
          | Ok b =>
              let* _ := PrintfLine "250 authenticated" in
              let* _ := match b with
                        | Some b' => setBackend b'
                        | None => ret tt
                        end in
              ret None
          | Err e => ret (Some e)
          end.

(* ===================================================================== *)
(** ** The dispatcher and the session loop                               *)
(* ===================================================================== *)

(** [NewServer] builds a new server handle: the table starts empty and
    gets its sixteen entries in the order of the source, the entry for
    the empty name first. *)
Definition NewServer (b : B) : Server :=
  {| Handlers :=
       <["xover" := handleOver]>
       (<["over" := handleOver]>
       (<["newgroups" := handleNewGroups]>
       (<["authinfo" := handleAuthInfo]>
       (<["mode" := handleMode]>
       (<["capabilities" := handleCap]>
       (<["ihave" := handleIHave]>
       (<["post" := handlePost]>
       (<["article" := handleArticle]>
       (<["body" := handleBody]>
       (<["head" := handleHead]>
       (<["list" := handleList]>
       (<["listgroup" := handleListGroup]>
       (<["group" := handleGroup]>
       (<["quit" := handleQuit]>
       (<["" := handleDefault]> ∅)))))))))))))));
     ServerBackend := b |}.

(** [s.server.Handlers[name]]: the handler and whether it was found. *)
Definition lookupHandler (srv : Server) (name : string) : option Handler :=
  Handlers srv !! name.

Definition dispatchCommand (srv : Server) (cmd : string) (args : list string)
  : M (option error) :=
  match lookupHandler srv (Strings.ToLower cmd) with
  | Some handler => handler args
  | None =>
      match lookupHandler srv "" with
      | Some handler => handler args
      | None => panic
      end
  end.

(** One turn of the loop of [Process], after a line [l] has been read:
    whether the loop goes on ([true]) or the connection is closed. *)
Definition serve (srv : Server) (l : string) : M bool :=
  let cmd := Strings.Split l " " in
  let* _ := logf (LogGotCmd cmd) in
  let args := if decide (1 < length cmd)%nat then drop 1 cmd else [] in
  let* c0 := index cmd 0 in
  let* err := dispatchCommand srv c0 args in
  match err with
  | None => ret true
  | Some EOF => ret false
  | Some (NNTP e) =>
      let* _ := PrintfLine (Sprintf0 missingOperands (Error e)) in
      ret true
  | Some other =>
      let* _ := logf (LogDispatchError other) in
      ret false
  end.

(** The loop of [Process], for at most [fuel] turns: [true] when the
    connection has been closed, [false] when the turns ran out first. *)
Fixpoint serveLoop (fuel : nat) (srv : Server) : M bool :=
  match fuel with
  | O => ret false
  | S fuel' =>
      let* '(l, err) := ReadLine in
      match err with
      | Some e =>
          let* _ := logf (LogReadError e) in
          ret true
      | None =>
          let* continue := serve srv l in
          if continue : bool then serveLoop fuel' srv else ret true
      end
  end.

(** The session [Process] starts with: the server's back end, no group
    selected, nothing sent and nothing logged. *)
Definition newSession (srv : Server) (lines : list string) (w : W) : State :=
  {| sess := {| backend := ServerBackend srv; group := None |};
     conn := {| input := lines; output := [] |};
     world := w;
     log := [] |}.

(** [Process] an NNTP session whose client sends [lines]. *)
Definition Process (fuel : nat) (srv : Server) (lines : list string) (w : W) : Res bool :=
  (let* _ := PrintfLine "200 Hello!" in serveLoop fuel srv) (newSession srv lines w).

(** A piece of the engine that leaves the selected group as it found
    it, whenever it returns. *)
Definition keepsGroup {A} (m : M A) : Prop :=
  forall st a st', m st = Done a st' -> group (sess st') = group (sess st).

(** What a command with arguments [args] binds when it is run from
    [st]: the group the back end returns for the first argument. *)
Definition fetched (st : State) (args : list string) (g : Nntp.Group) : Prop :=
  exists name rest w',
    args = name :: rest
    /\ GetGroup (backend (sess st)) name (world st) = (Ok g, w').

End Engine.

Arguments Done {B W A} a st.
Arguments Panic {B W A}.

(* ===================================================================== *)
(** ** A small back end to run the engine on                             *)
(* ===================================================================== *)

Module Demo.

Definition misc : Nntp.Group :=
  {| Nntp.Name := "misc.test"; Nntp.Description := "tests";
     Nntp.Count := 3; Nntp.Low := 1; Nntp.High := 3;
     Nntp.Posting := Nntp.PostingPermitted |}.

Definition golang : Nntp.Group :=
  {| Nntp.Name := "comp.lang.go"; Nntp.Description := "the Go language";
     Nntp.Count := 1; Nntp.Low := 7; Nntp.High := 7;
     Nntp.Posting := Nntp.PostingModerated |}.

Definition hello : Nntp.Article :=
  {| Nntp.Header := <["Subject" := ["hello"]]>
                    (<["Message-Id" := ["<1@demo>"]]>
                    (<["X-Trace" := ["a"; "b"]]>
                    (<["Approved" := ["yes"]]> ∅)));
     Nntp.Body := {| Nntp.data := "hi" +:+ LF; Nntp.readErr := None |};
     Nntp.Bytes := 3; Nntp.Lines := 1 |}.

(** A header map that binds a name to no value at all. *)
Definition hollow : gmap string (list string) :=
  <["Subject" := []]> (<["From" := ["a@demo"]]> ∅).

(** The back end: [false] serves anonymous clients and [true] the
    authenticated ones; the storage is on line ([true]) or not.  Groups
    are answered from memory; articles need the storage, to be listed
    and to be posted. *)
#[global] Instance demoBackend : Backend bool bool := {|
  ListGroups := fun _ _ w => (Ok [misc; golang], w);
  GetGroup := fun _ name w =>
    (if decide (name = "misc.test") then Ok misc
     else if decide (name = "comp.lang.go") then Ok golang
     else Err (NNTP ErrNoSuchGroup), w);
  GetArticle := fun _ g id w =>
    (if decide (id = "1") then Ok hello
     else if decide (id = "<1@demo>") then Ok hello
     else if snd (Strconv.ParseInt id) is None then Err (NNTP ErrInvalidArticleNumber)
     else Err (NNTP ErrInvalidMessageID), w);
  GetArticles := fun _ g from to (w : bool) =>
    (if w then Ok (if decide (from <= 1 <= to) then [{| Num := 1; Article := hello |}] else [])
     else Err (OtherError "storage is off line"), w);
  Authorized := fun b w => (b, w);
  Authenticate := fun _ user pass w =>
    (if decide (user = "alice" ∧ pass = "secret") then Ok (Some true)
     else Err (NNTP ErrAuthRejected), w);
  AllowPost := fun _ w => (true, w);
  Post := fun _ _ (w : bool) =>
    (if w then None else Some (NNTP {| Code := 441; Msg := "spool is at 100%" |}), w)
|}.

(** A stand-in for [strings.Map(unicode.ToLower, s)], right on the
    texts whose only runes outside ASCII are the two whose lower case is
    an ASCII letter: U+0130 (the bytes C4 B0) becomes [i], U+212A (the
    bytes E2 84 AA) becomes [k], the letters A to Z become a to z, and
    every other byte is kept.  The examples use no other rune. *)
Fixpoint demoLower (s : string) : string :=
  match s with
  | EmptyString => EmptyString
  | String c r =>
      match r with
      | String c2 r2 =>
          if (N_of_ascii c =? 196)%N && (N_of_ascii c2 =? 176)%N
          then String "i" (demoLower r2)
          else
            match r2 with
            | String c3 r3 =>
                if (N_of_ascii c =? 226)%N && (N_of_ascii c2 =? 132)%N
                   && (N_of_ascii c3 =? 170)%N
                then String "k" (demoLower r3)
                else String (Strings.lower_ascii c) (demoLower r)
            | EmptyString => String (Strings.lower_ascii c) (demoLower r)
            end
      | EmptyString => String (Strings.lower_ascii c) EmptyString
      end
  end.

#[global] Instance demoUnicode : Strings.Unicode := {|
  Strings.mapToLower := demoLower
|}.

(** A header reader that takes the lines up to the first empty one and
    keeps none of them.  The rendering of a format follows [fmt] on the
    formats whose only per-cent sign is their last byte: a verb is
    missing there, and [fmt] prints [%!(NOVERB)] in its place. *)
Fixpoint skipHeader (ls : list string) : list string :=
  match ls with
  | [] => []
  | l :: rest => if decide (l = "") then rest else skipHeader rest
  end.

#[global] Instance demoTextproto : Textproto := {|
  ReadMIMEHeader := fun ls => (Ok (∅ : gmap string (list string)), skipHeader ls);
  missingOperands := fun format => format +:+ "!(NOVERB)"
|}.

(** A session of the demo server: anonymous, storage on line or not, a
    group selected or not, the client's lines still to be read. *)
Definition start (online : bool) (g : option Nntp.Group) (lines : list string)
  : State (B := bool) (W := bool) :=
  {| sess := {| backend := false; group := g |};
     conn := {| input := lines; output := [] |};
     world := online;
     log := [] |}.

End Demo.


(* ===================================================================== *)
(** ** Relations between the state before and after a piece of the engine *)
(* ===================================================================== *)

Section Relations.

Context {B W : Type} `{!Backend B W} `{!Textproto} `{!Strings.Unicode}.

(** A piece of the engine whose every run relates the state it starts
    from to the state it returns in. *)
Definition preserves {A} (R : State (B := B) (W := W) -> State (B := B) (W := W) -> Prop)
    (m : M A) : Prop :=
  forall st a st', m st = Done a st' -> R st st'.

(** Nothing sent is taken back: what had been sent is the beginning of
    what has been sent afterwards. *)
Definition sentBefore (st st' : State (B := B) (W := W)) : Prop :=
  output (conn st) `prefix_of` output (conn st').


(** The session's back end is the same value. *)
Definition sameBackend (st st' : State (B := B) (W := W)) : Prop :=
  backend (sess st') = backend (sess st).

End Relations.

(* ===================================================================== *)
(** ** The example server on CouchDB: package [main] of [couchserver]    *)
(* ===================================================================== *)

Module Couch.

(** What the network gives to [init]: [http.Get] returns an error; or it
    returns a response, with its status code and status text, and
    [ioutil.ReadAll] of the response's body returns bytes (a slice,
    [None] when it is [nil]) and an error or none. *)
Inductive Fetched : Type :=
| Refused (err : error)
| Answered (StatusCode : Z) (Status : string)
           (body : option (list Byte.byte)) (readErr : option error).

(** The network: a request for a URL is answered and the network is left
    in a new state. *)
Class Http (N : Type) : Type := { Get : string -> N -> Fetched * N }.

(** [lazyOpener]: the URL, the bytes still to be delivered ([None] for
    the [nil] slice) and the error. *)
Record lazyOpener : Type := {
  url : string;
  data : option (list Byte.byte);
  err : option error
}.

(** [init]: [l.err] takes the error of the request; without one, a
    status other than 200 is stored in [l.err], and then both fields
    take what [ReadAll] returns. *)
Definition init {N} `{!Http N} (l : lazyOpener) (net : N) : lazyOpener * N :=
  match Get (url l) net with
  | (Refused e, net') => ({| url := url l; data := data l; err := Some e |}, net')
  | (Answered StatusCode Status body readErr, net') =>
      let l0 := {| url := url l; data := data l; err := None |} in
      let l1 := if decide (StatusCode ≠ 200)
                then {| url := url l0; data := data l0; err := Some (OtherError Status) |}
                else l0 in
      ({| url := url l1; data := body; err := readErr |}, net')
  end.

(** [Read] into a buffer of length [p]: the bytes copied into the
    buffer (their number is the result [n]) and the result [err], the
    opener afterwards and the network afterwards.  With an error stored,
    the function returns its own named result [err], which is still
    [nil] there, not [l.err]. *)
Definition Read {N} `{!Http N} (l : lazyOpener) (p : nat) (net : N)
  : (list Byte.byte * option error) * lazyOpener * N :=
  let '(l, net) := if decide (data l = None ∧ err l = None) then init l net
                   else (l, net) in
  if decide (err l ≠ None) then (([], None), l, net)
  else
    let d := default [] (data l) in
    if decide (length d = 0%nat) then (([], Some EOF), l, net)
    else
      let copied := (p `min` length d)%nat in
      ((take copied d, None),
       {| url := url l; data := Some (drop copied d); err := err l |}, net).

(** A reader's client: [Read] called once for each buffer length of
    [sizes], whatever it returns; the bytes delivered, in a row. *)
Fixpoint drain {N} `{!Http N} (sizes : list nat) (l : lazyOpener) (net : N)
  : list Byte.byte * lazyOpener * N :=
  match sizes with
  | [] => ([], l, net)
  | p :: sizes' =>
      let '((bytes, _), l1, net1) := Read l p net in
      let '(more, l2, net2) := drain sizes' l1 net1 in
      (bytes ++ more, l2, net2)
  end.

(** A [time.Time] as [addMandatoryHeaders] uses it: what
    [Format(time.RFC822Z)] gives, and [UnixNano()] written in base 36. *)
Record Time : Type := { RFC822Z : string; UnixNano36 : string }.

(** The [article] document, with the fields the functions below read:
    the message-id, the headers (a map, [None] when it is [nil]), the
    byte and line counts and the time the article was added. *)
Record article : Type := {
  MsgID : string;
  Headers : option (gmap string (list string));
  Bytes : Z;
  Lines : Z;
  Added : Time
}.

(** The map [defaults] of [addMandatoryHeaders].  [MIMEHeader.Set]
    stores each value under the canonical form of its name: [Message-ID]
    is stored as [Message-Id], the other five names are canonical. *)
Definition defaults (ar : article) : gmap string (list string) :=
  <["Subject" := ["Unspecified Subject"]]>
  (<["Path" := ["unspecified.path"]]>
  (<["Newsgroups" := ["unspecified.newsgroups"]]>
  (<["Message-Id" := ["<" +:+ MsgID ar +:+ "." +:+ UnixNano36 (Added ar)
                      +:+ "@unspecified.msgid>"]]>
  (<["From" := ["unknown.sender"]]>
  (<["Date" := [RFC822Z (Added ar)]]> ∅))))).

(** One turn of the loop of [addMandatoryHeaders], for the name [k]:
    [acc] holds the names logged so far and the headers, or [None] after
    a panic.  A name that is no key of the headers, or a key without a
    value, is logged and given its default; assigning to an entry of a
    [nil] map panics. *)
Definition supply (dflt : gmap string (list string))
    (acc : option (list string * option (gmap string (list string)))) (k : string)
  : option (list string * option (gmap string (list string))) :=
  match acc with
  | None => None
  | Some (logged, headers) =>
      let entries := match headers with
                     | Some m => m !! k
                     | None => None
                     end in
      if decide (entries = None ∨ entries = Some [])
      then match headers with
           | Some m => Some (logged ++ [k], Some (<[k := default [] (dflt !! k)]> m))
           | None => None
           end
      else acc
  end.

(** [addMandatoryHeaders], the map [defaults] being ranged over in the
    order [ks]: the names logged and the article afterwards, or [None]
    when the function panics. *)
Definition addMandatoryHeadersIn (ks : list string) (ar : article)
  : option (list string * article) :=
  match foldl (supply (defaults ar)) (Some ([], Headers ar)) ks with
  | None => None
  | Some (logged, headers) =>
      Some (logged, {| MsgID := MsgID ar; Headers := headers; Bytes := Bytes ar;
                       Lines := Lines ar; Added := Added ar |})
  end.

(** [addMandatoryHeaders]: Go leaves the order of the range over a map
    unspecified; the order of [map_to_list] is one of them. *)
Definition addMandatoryHeaders (ar : article) : option (list string * article) :=
  addMandatoryHeadersIn (map_to_list (defaults ar)).*1 ar.

(** For the examples: a network that answers the request for one URL
    with the page of a 404 and refuses every other, counting the
    requests; and a stored article whose subject has no value. *)
#[global] Instance demoHttp : Http nat := {|
  Get := fun u n =>
    (if decide (u = "http://couch/news/1%40demo/article")
     then Answered 404 "404 Object Not Found" (Some [Byte.x6e; Byte.x6f; Byte.x0a]) None
     else Refused (OtherError "connection refused"), S n)
|}.

Definition stored : article :=
  {| MsgID := "1@demo";
     Headers := Some (<["Subject" := []]> (<["X-Trace" := ["a"]]> ∅));
     Bytes := 3; Lines := 1;
     Added := {| RFC822Z := "27 Feb 02 12:50 +0200"; UnixNano36 := "7rm2xb1nf4w0" |} |}.

End Couch.

(* ===================================================================== *)
(** * Properties of the engine                                           *)
(* ===================================================================== *)

(** ** Splitting and parsing *)

Lemma Split_nonempty s sep : Strings.Split s sep ≠ [].
Proof.
  induction s as [|c r IH]; simpl; [done|].
  destruct (Ascii.eqb c sep); [done|]. by destruct (Strings.Split r sep).
Qed.

Lemma Split_without_separator s sep :
  Strings.contains s sep = false → Strings.Split s sep = [s].
Proof.
  induction s as [|c r IH]; simpl; [done|].
  destruct (Ascii.eqb c sep); simpl; [done|].
  intros Hr. by rewrite (IH Hr).
Qed.

Lemma Split_at_first_separator a b sep :
  Strings.contains a sep = false →
  Strings.Split (a +:+ String sep b) sep = a :: Strings.Split b sep.
Proof.
  induction a as [|c r IH]; simpl.
  - intros _. by rewrite Ascii.eqb_refl.
  - destruct (Ascii.eqb c sep); simpl; [done|].
    intros Hr. by rewrite (IH Hr).
Qed.

Lemma SplitN_head s sep n : ∃ f fs, Strings.SplitN s sep (S n) = f :: fs.
Proof.
  destruct n as [|n]; simpl; [by eauto|].
  destruct (Strings.cut s sep) as [f [r|]]; eauto.
Qed.

Lemma append_not_empty a b : b ≠ "" → a +:+ b ≠ "".
Proof. intros Hb. destruct a; simpl; [exact Hb|discriminate]. Qed.

(** *** Numerals *)

Lemma uintValue_ge d : ∀ acc, 0 <= acc → acc <= Strconv.uintValue d acc.
Proof.
  induction d as [|d IH|d IH|d IH|d IH|d IH|d IH|d IH|d IH|d IH|d IH];
    intros acc Hacc; simpl; [lia|..];
    (etrans; [|apply IH; lia]); lia.
Qed.

Lemma uintValue_of_uint_acc d : ∀ acc,
  Z.pos (Pos.of_uint_acc d acc) = Strconv.uintValue d (Z.pos acc).
Proof.
  induction d as [|d IH|d IH|d IH|d IH|d IH|d IH|d IH|d IH|d IH|d IH];
    intros acc; simpl; [done|..]; rewrite IH; f_equal; lia.
Qed.

Lemma uintValue_of_uint d : Z.of_N (Pos.of_uint d) = Strconv.uintValue d 0.
Proof.
  induction d as [|d IH|d IH|d IH|d IH|d IH|d IH|d IH|d IH|d IH|d IH];
    simpl; [done|done|..]; by rewrite uintValue_of_uint_acc.
Qed.

Lemma parseUintLoop_step c r n d :
  Strconv.digit c = Some d → 0 <= d <= 9 → 0 <= n →
  10 * n + d <= Strconv.MaxInt64 →
  Strconv.parseUintLoop (String c r) n = Strconv.parseUintLoop r (10 * n + d).
Proof.
  intros Hc Hd Hn Hmax. cbn [Strconv.parseUintLoop]. rewrite Hc.
  unfold Strconv.MaxInt64, Strconv.maxUint64 in *.
  change (18446744073709551615 `div` 10 + 1) with 1844674407370955162.
  rewrite Z.geb_leb. destruct (Z.leb_spec 1844674407370955162 n) as [?|_]; [lia|].
  cbv zeta. rewrite (Z.mod_small (n * 10 + d)) by lia.
  destruct (Z.ltb_spec (n * 10 + d) (n * 10)) as [?|_]; [lia|].
  rewrite Z.gtb_ltb.
  destruct (Z.ltb_spec 18446744073709551615 (n * 10 + d)) as [?|_]; [lia|].
  simpl. f_equal. lia.
Qed.

Lemma parseUintLoop_numeral d : ∀ n,
  0 <= n → Strconv.uintValue d n <= Strconv.MaxInt64 →
  Strconv.parseUintLoop (NilEmpty.string_of_uint d) n = (Strconv.uintValue d n, None).
Proof.
  induction d as [|d IH|d IH|d IH|d IH|d IH|d IH|d IH|d IH|d IH|d IH];
    intros n Hn Hmax; [done|..];
    cbn [NilEmpty.string_of_uint Strconv.uintValue] in *;
    match goal with
    | H : Strconv.uintValue d ?a <= _ |- _ =>
        pose proof (uintValue_ge d a ltac:(lia)) as Hge
    end;
    (erewrite parseUintLoop_step; [|vm_compute; reflexivity|lia|lia|lia]);
    rewrite ?Z.add_0_r; by apply IH; [lia|].
Qed.

Lemma numeral_digits d :
  Strings.contains (NilEmpty.string_of_uint d) "-" = false.
Proof.
  induction d as [|d IH|d IH|d IH|d IH|d IH|d IH|d IH|d IH|d IH|d IH];
    simpl; done.
Qed.

(** The numeral [%d] prints for an article number is read back by
    [ParseInt] as that number, and holds no dash. *)
Lemma ParseInt_FormatInt n :
  0 <= n <= Strconv.MaxInt64 →
  Strconv.ParseInt (Strconv.FormatInt n) = (n, None)
  ∧ Strings.contains (Strconv.FormatInt n) "-" = false.
Proof.
  intros [Hn Hmax]. destruct n as [|p|p]; [done| |lia].
  unfold Strconv.FormatInt. cbn [Z.to_int NilZero.string_of_int].
  pose proof (DecimalPos.Unsigned.of_to p) as Hp.
  pose proof (uintValue_of_uint (Pos.to_uint p)) as Hv. rewrite Hp in Hv.
  pose proof (DecimalPos.Unsigned.to_uint_nonnil p) as Hnil.
  assert (Hs : NilZero.string_of_uint (Pos.to_uint p)
               = NilEmpty.string_of_uint (Pos.to_uint p)).
  { by destruct (Pos.to_uint p). }
  rewrite Hs. split; [|apply numeral_digits].
  pose proof (parseUintLoop_numeral (Pos.to_uint p) 0 ltac:(lia)) as Hloop.
  rewrite <- Hv in Hloop. simpl Z.of_N in Hloop. specialize (Hloop Hmax).
  revert Hloop. destruct (Pos.to_uint p) as [|d|d|d|d|d|d|d|d|d|d]; [done|..];
    intros Hloop; unfold Strconv.ParseInt;
    cbn [NilEmpty.string_of_uint Ascii.eqb Bool.eqb] in *; cbv iota;
    unfold Strconv.ParseUint; rewrite Hloop;
    unfold Strconv.MaxInt64 in Hmax; cbn [negb andb];
    (destruct (Z.geb_spec (Z.pos p) (2 ^ 63)) as [?|_]; [lia|done]).
Qed.

(** The two shapes of a range with at least one field, as [parseRange]
    computes them. *)
Lemma parseRange_one_field s :
  s ≠ "" → Strings.contains s "-" = false →
  parseRange s
  = (0, if snd (Strconv.ParseInt s) is Some _ then Strconv.MaxInt64
        else fst (Strconv.ParseInt s)).
Proof.
  intros Hs Hd. unfold parseRange.
  destruct (decide (s = "")) as [|_]; [done|].
  rewrite (Split_without_separator _ _ Hd).
  by destruct (Strconv.ParseInt s) as [h [e|]].
Qed.

Lemma parseRange_two_fields a b :
  Strings.contains a "-" = false → Strings.contains b "-" = false →
  parseRange (a +:+ "-" +:+ b)
  = (fst (Strconv.ParseInt a),
     if snd (Strconv.ParseInt b) is Some _ then Strconv.MaxInt64
     else fst (Strconv.ParseInt b)).
Proof.
  intros Ha Hb. unfold parseRange.
  destruct (decide (a +:+ "-" +:+ b = "")) as [He|_].
  { by apply append_not_empty in He. }
  change (a +:+ "-" +:+ b) with (a +:+ String "-" b).
  rewrite (Split_at_first_separator _ _ _ Ha), (Split_without_separator _ _ Hb).
  destruct (Strconv.ParseInt a) as [l ea].
  by destruct (Strconv.ParseInt b) as [h [e|]].
Qed.

Lemma append_empty_r (s : string) : s +:+ "" = s.
Proof.
  induction s as [|c r IH]; [done|].
  change (String c (r +:+ "") = String c r). by f_equal.
Qed.

(** A text that holds the separator, cut at its first one. *)
Lemma cut_at_first_separator s sep :
  Strings.contains s sep = true →
  ∃ a r, s = a +:+ String sep r ∧ Strings.contains a sep = false.
Proof.
  induction s as [|c s IH]; simpl; [done|].
  destruct (Ascii.eqb c sep) eqn:Hc; simpl.
  - intros _. apply Ascii.eqb_eq in Hc as ->. by exists "", s.
  - intros Hs. destruct (IH Hs) as (a & r & -> & Ha).
    exists (String c a), r. simpl. by rewrite Hc.
Qed.

(** Every text is empty, or one field, or two fields and what follows
    them: nothing, or a dash and the rest. *)
Lemma range_shapes spec :
  spec = ""
  ∨ (spec ≠ "" ∧ Strings.contains spec "-" = false)
  ∨ ∃ a b tail,
      spec = a +:+ "-" +:+ b +:+ tail
      ∧ Strings.contains a "-" = false ∧ Strings.contains b "-" = false
      ∧ (tail = "" ∨ ∃ c, tail = "-" +:+ c).
Proof.
  destruct (decide (spec = "")) as [|Hne]; [by left|right].
  destruct (Strings.contains spec "-") eqn:Hd; [right|by left].
  destruct (cut_at_first_separator _ _ Hd) as (a & r & -> & Ha).
  exists a. destruct (Strings.contains r "-") eqn:Hr.
  - destruct (cut_at_first_separator _ _ Hr) as (b & c & -> & Hb).
    exists b, ("-" +:+ c). repeat split; [done..|]. right. by exists c.
  - exists r, "". rewrite append_empty_r. repeat split; [done..|]. by left.
Qed.

(** Two fields and what follows them: the fields after the second are
    not looked at. *)
Lemma parseRange_two_fields_more a b tail :
  Strings.contains a "-" = false → Strings.contains b "-" = false →
  tail = "" ∨ (∃ c, tail = "-" +:+ c) →
  parseRange (a +:+ "-" +:+ b +:+ tail)
  = (fst (Strconv.ParseInt a),
     if snd (Strconv.ParseInt b) is Some _ then Strconv.MaxInt64
     else fst (Strconv.ParseInt b)).
Proof.
  intros Ha Hb [->|[c ->]].
  { rewrite append_empty_r. by apply parseRange_two_fields. }
  unfold parseRange.
  destruct (decide (a +:+ "-" +:+ b +:+ "-" +:+ c = "")) as [He|_].
  { by apply append_not_empty in He. }
  change (a +:+ "-" +:+ b +:+ "-" +:+ c) with (a +:+ String "-" (b +:+ String "-" c)).
  rewrite (Split_at_first_separator _ _ _ Ha), (Split_at_first_separator _ _ _ Hb).
  destruct (Strconv.ParseInt a) as [l ea].
  by destruct (Strconv.ParseInt b) as [h [e|]].
Qed.

(** A syntax error of [ParseInt] always comes with the value 0. *)
Lemma ParseInt_syntax_error a v :
  Strconv.ParseInt a = (v, Some Strconv.ErrSyntax) → v = 0.
Proof.
  unfold Strconv.ParseInt. intros Hpa.
  destruct a as [|c r]; [by inversion Hpa|].
  destruct (if Ascii.eqb c "+" then _ else _) as [neg body].
  destruct (Strconv.ParseUint body) as [un [[]|]]; [by inversion Hpa| |].
  all: repeat case_match; by inversion Hpa.
Qed.

(** C3 (as amended).  Every text is the empty string, or one field
    without a dash, or a field, a dash and a second field, with nothing
    after it or with a dash and any text; and [parseRange] is stated on
    each shape, what follows the second field never counting.  It
    returns [0, MaxInt64] for the empty string; [0, N] for a single field
    that parses to N; [N, MaxInt64] for a field that parses to N followed
    by a dash and a field that does not parse (the empty field of [N-]
    included); [N, M] for two fields that parse to N and M; so it does
    for the decimal numerals of article numbers N and M.  A field in the
    upper position that does not parse, for whichever reason, makes the
    upper bound [MaxInt64]; a field in the lower position that is not a
    well-formed integer makes the lower bound 0.  (Fields are the texts
    between dashes, so they hold none.) *)
Theorem parseRange_cases :
  (∀ spec,
     spec = ""
     ∨ (spec ≠ "" ∧ Strings.contains spec "-" = false)
     ∨ ∃ a b tail,
         spec = a +:+ "-" +:+ b +:+ tail
         ∧ Strings.contains a "-" = false ∧ Strings.contains b "-" = false
         ∧ (tail = "" ∨ ∃ c, tail = "-" +:+ c))
  ∧ parseRange "" = (0, Strconv.MaxInt64)
  ∧ (∀ s n, Strings.contains s "-" = false →
            Strconv.ParseInt s = (n, None) → parseRange s = (0, n))
  ∧ (∀ a b tail n v e,
            Strings.contains a "-" = false → Strings.contains b "-" = false →
            tail = "" ∨ (∃ c, tail = "-" +:+ c) →
            Strconv.ParseInt a = (n, None) → Strconv.ParseInt b = (v, Some e) →
            parseRange (a +:+ "-" +:+ b +:+ tail) = (n, Strconv.MaxInt64))
  ∧ (∀ a b tail n m,
            Strings.contains a "-" = false → Strings.contains b "-" = false →
            tail = "" ∨ (∃ c, tail = "-" +:+ c) →
            Strconv.ParseInt a = (n, None) → Strconv.ParseInt b = (m, None) →
            parseRange (a +:+ "-" +:+ b +:+ tail) = (n, m))
  ∧ (∀ s v e, s ≠ "" → Strings.contains s "-" = false →
            Strconv.ParseInt s = (v, Some e) →
            parseRange s = (0, Strconv.MaxInt64))
  ∧ (∀ a b tail v e,
            Strings.contains a "-" = false → Strings.contains b "-" = false →
            tail = "" ∨ (∃ c, tail = "-" +:+ c) →
            Strconv.ParseInt b = (v, Some e) →
            snd (parseRange (a +:+ "-" +:+ b +:+ tail)) = Strconv.MaxInt64)
  ∧ (∀ a b tail v,
            Strings.contains a "-" = false → Strings.contains b "-" = false →
            tail = "" ∨ (∃ c, tail = "-" +:+ c) →
            Strconv.ParseInt a = (v, Some Strconv.ErrSyntax) →
            fst (parseRange (a +:+ "-" +:+ b +:+ tail)) = 0)
  ∧ (∀ n m, 0 <= n <= Strconv.MaxInt64 → 0 <= m <= Strconv.MaxInt64 →
            parseRange (Strconv.FormatInt n) = (0, n)
            ∧ parseRange (Strconv.FormatInt n +:+ "-") = (n, Strconv.MaxInt64)
            ∧ parseRange (Strconv.FormatInt n +:+ "-" +:+ Strconv.FormatInt m)
              = (n, m)).
Proof.
  split; [exact range_shapes|].
  split; [reflexivity|].
  split.
  { intros s n Hd Hp. rewrite parseRange_one_field, Hp; [done| |done].
    intros ->. discriminate Hp. }
  split.
  { intros a b tail n v e Ha Hb Ht Hpa Hpb.
    by rewrite parseRange_two_fields_more, Hpa, Hpb. }
  split.
  { intros a b tail n m Ha Hb Ht Hpa Hpb.
    by rewrite parseRange_two_fields_more, Hpa, Hpb. }
  split.
  { intros s v e Hs Hd Hp. by rewrite parseRange_one_field, Hp. }
  split.
  { intros a b tail v e Ha Hb Ht Hpb. by rewrite parseRange_two_fields_more, Hpb. }
  split.
  { intros a b tail v Ha Hb Ht Hpa. rewrite parseRange_two_fields_more by done.
    simpl. rewrite Hpa. simpl. by eapply ParseInt_syntax_error. }
  intros n m Hn Hm.
  destruct (ParseInt_FormatInt n Hn) as [Hpn Hdn].
  destruct (ParseInt_FormatInt m Hm) as [Hpm Hdm].
  split; [|split].
  - rewrite parseRange_one_field, Hpn; [done| |done].
    intros He. rewrite He in Hpn. discriminate Hpn.
  - change (Strconv.FormatInt n +:+ "-") with (Strconv.FormatInt n +:+ "-" +:+ "").
    by rewrite parseRange_two_fields, Hpn.
  - by rewrite parseRange_two_fields, Hpn, Hpm.
Qed.

(** C3, the claim as stated fails.  A lower field too large for 64 bits
    does not parse, and the lower bound is then [MaxInt64], not 0.  And a
    single integer that [ParseInt] accepts, [-5], does not give [0, -5]:
    its dash splits it into an empty lower field and the upper field 5. *)
Lemma parseRange_lower_overflow :
  snd (Strconv.ParseInt "9223372036854775808") = Some Strconv.ErrRange
  ∧ parseRange "9223372036854775808-5" = (Strconv.MaxInt64, 5)
  ∧ fst (parseRange "9223372036854775808-5") ≠ 0
  ∧ Strconv.ParseInt "-5" = (-5, None)
  ∧ parseRange "-5" = (0, 5).
Proof.
  repeat split; vm_compute; first [reflexivity | discriminate].
Qed.

(** ** Running the handlers *)

Section Facts.

Context {B W : Type} `{!Backend B W} `{!Textproto} `{!Strings.Unicode}.
Implicit Types (st : State (B := B) (W := W)) (args : list string).

(** The line [GROUP] answers with. *)
Lemma groupLine_fields (g : Nntp.Group) :
  groupLine g = "211 " +:+ Strconv.FormatInt (Nntp.Count g) +:+ " "
                +:+ Strconv.FormatInt (Nntp.Low g) +:+ " "
                +:+ Strconv.FormatInt (Nntp.High g) +:+ " " +:+ Nntp.Name g.
Proof. reflexivity. Qed.

Lemma handleGroup_not_found st name rest e w' :
  GetGroup (backend (sess st)) name (world st) = (Err e, w') →
  handleGroup (name :: rest) st = Done (Some e) (storing st w').
Proof.
  intros HG. unfold handleGroup, bind, index, call; simpl. by rewrite HG.
Qed.

Lemma handleGroup_found st name rest g w' :
  GetGroup (backend (sess st)) name (world st) = (Ok g, w') →
  handleGroup (name :: rest) st
  = Done None (sending (selecting (storing st w') (Some g)) [Line (groupLine g)]).
Proof.
  intros HG. unfold handleGroup, bind, index, call; simpl. by rewrite HG.
Qed.

(** C1 (as amended).  [GROUP] without an argument returns the 411 error
    (no such newsgroup) and touches nothing; with a group name the back
    end cannot find it returns the back end's error, 411 when that is
    [ErrNoSuchGroup], and leaves the selection as it was; on success it
    selects the fetched group and writes the one line
    [211 count low high name] made of the group's fields. *)
Theorem handleGroup_replies st :
  handleGroup [] st = Done (Some (NNTP ErrNoSuchGroup)) st
  ∧ Code ErrNoSuchGroup = 411
  ∧ (∀ name rest e w',
       GetGroup (backend (sess st)) name (world st) = (Err e, w') →
       handleGroup (name :: rest) st = Done (Some e) (storing st w')
       ∧ group (sess (storing st w')) = group (sess st))
  ∧ (∀ name rest g w',
       GetGroup (backend (sess st)) name (world st) = (Ok g, w') →
       handleGroup (name :: rest) st
       = Done None
           (sending (selecting (storing st w') (Some g))
              [Line ("211 " +:+ Strconv.FormatInt (Nntp.Count g) +:+ " "
                     +:+ Strconv.FormatInt (Nntp.Low g) +:+ " "
                     +:+ Strconv.FormatInt (Nntp.High g) +:+ " " +:+ Nntp.Name g)])).
Proof.
  split; [reflexivity|]. split; [reflexivity|]. split.
  - intros name rest e w' HG. split; [|done]. by apply handleGroup_not_found.
  - intros name rest g w' HG. rewrite <- groupLine_fields.
    by apply handleGroup_found.
Qed.

(** C2, where the code fails the claim: three handlers index a slice
    without looking at its length and panic.  [OVER] with a group
    selected and no range; [IHAVE] with posting allowed and no
    message-id; [AUTHINFO USER] from a client not yet authorized whose next
    line is [AUTHINFO] alone or [AUTHINFO PASS] without a password. *)
Theorem handlers_index_out_of_range st :
  (group (sess st) ≠ None → handleOver [] st = Panic)
  ∧ (∀ w', AllowPost (backend (sess st)) (world st) = (true, w') →
           handleIHave [] st = Panic)
  ∧ (∀ op user l rest w',
       Strings.ToLower op = "user" →
       Authorized (backend (sess st)) (world st) = (false, w') →
       input (conn st) = l :: rest →
       l = "AUTHINFO" ∨ l = "AUTHINFO PASS" →
       handleAuthInfo [op; user] st = Panic).
Proof.
  split; [|split].
  - intros Hg. unfold handleOver, bind, getGroup; simpl.
    by destruct (decide (group (sess st) = None)).
  - intros w' HA. unfold handleIHave, bind, call; simpl. by rewrite HA.
  - intros op user l rest w' Hop HA Hin Hl.
    unfold handleAuthInfo, bind, index, call, ReadLine; simpl.
    destruct (decide (Strings.ToLower op ≠ "user")) as [|_]; [done|].
    rewrite HA; simpl. rewrite Hin.
    by destruct Hl as [-> | ->].
Qed.

(** C5.  [LISTGROUP] without a group argument and without a selected
    group returns 412.  The range defaults to [1-]: without a second
    argument the handler does what it does with [1-] spelled out, and that
    range is [1, MaxInt64].  Whenever the parsed range has [from = 0],
    [from < 1] or [from > to] the handler returns the 501 error with the
    state as it was: no back end has been called, whatever back end it
    is, so [LISTGROUP badgroup 0-5] yields 501 whether or not the group
    exists. *)
Theorem handleListGroup_range_check st :
  (group (sess st) = None →
   handleListGroup [] st = Done (Some (NNTP ErrNoGroupSelected)) st)
  ∧ (∀ name, handleListGroup [name] st = handleListGroup [name; "1-"] st)
  ∧ parseRange "1-" = (1, Strconv.MaxInt64)
  ∧ (∀ g, group (sess st) = Some g →
          handleListGroup [] st = listGroupArticles g 1 Strconv.MaxInt64 st)
  ∧ (∀ name range more,
       let '(from, to) := parseRange range in
       from = 0 ∨ from < 1 ∨ from > to →
       handleListGroup (name :: range :: more) st = Done (Some (NNTP ErrSyntax)) st)
  ∧ handleListGroup ["badgroup"; "0-5"] st = Done (Some (NNTP ErrSyntax)) st.
Proof.
  split; [|split; [|split; [|split; [|split]]]].
  - intros Hg. unfold handleListGroup, bind, getGroup; simpl. rewrite Hg.
    case_match; first [done | exfalso; intuition (simpl in *; first [lia|congruence])].
  - intros name. reflexivity.
  - reflexivity.
  - intros g Hg. unfold handleListGroup, bind, getGroup; simpl. rewrite Hg.
    case_match; first [done | exfalso; intuition (simpl in *; first [lia|congruence])].
  - intros name range more. destruct (parseRange range) as [from to] eqn:Hr.
    intros Hbad. unfold handleListGroup, bind, getGroup; simpl.
    rewrite Hr.
    destruct (decide (from = 0)); [done|].
    destruct (decide (from < 1 ∨ from > to)); [done|]. lia.
  - reflexivity.
Qed.

(** C7.  The helper of [HEAD], [BODY] and [ARTICLE] returns 412 when no
    group is selected, whatever the arguments; 420 when a group is
    selected and there is no argument; and otherwise hands the selected
    group and the first argument, as it is, to the back end's
    [GetArticle] and returns its answer.  An error of the helper, the
    back end's 430 or 423 included, is what each of the three handlers
    returns, with nothing sent. *)
Theorem getArticle_resolution st :
  (group (sess st) = None →
   ∀ args, getArticle args st = Done (Err (NNTP ErrNoGroupSelected)) st)
  ∧ (∀ g, group (sess st) = Some g →
          getArticle [] st = Done (Err (NNTP ErrNoCurrentArticle)) st)
  ∧ (∀ g id rest, group (sess st) = Some g →
          getArticle (id :: rest) st
          = let '(r, w') := GetArticle (backend (sess st)) (Some g) id (world st) in
            Done r (storing st w'))
  ∧ (∀ args e st', getArticle args st = Done (Err e) st' →
          handleHead args st = Done (Some e) st'
          ∧ handleBody args st = Done (Some e) st'
          ∧ handleArticle args st = Done (Some e) st'
          ∧ output (conn st') = output (conn st)).
Proof.
  split; [|split; [|split]].
  - intros Hg args. unfold getArticle, bind, getGroup; simpl. by rewrite Hg.
  - intros g Hg. unfold getArticle, bind, getGroup; simpl. by rewrite Hg.
  - intros g id rest Hg. unfold getArticle, bind, getGroup, index, call; simpl.
    by rewrite Hg.
  - intros args e st' Hget.
    unfold handleHead, handleBody, handleArticle, bind. rewrite Hget.
    repeat split.
    revert Hget. unfold getArticle, bind, getGroup, index, call; simpl.
    destruct (decide (group (sess st) = None)); [by intros [= _ <-]|].
    destruct (decide (length args = 0%nat)); [by intros [= _ <-]|].
    destruct args as [|id rest]; [done|]. simpl.
    destruct (GetArticle _ _ _ _) as [r w']. by intros [= _ <-].
Qed.

(** C10.  [LIST] with a type that is none of [active], [newsgroups] and
    [overview.fmt], in whatever case, still calls [ListGroups(-1)]; when
    the call succeeds the handler returns no error after the line
    [215 list of newsgroups follows] and a dot block that holds nothing,
    whatever the groups are; the only error it can return is the one the
    call returns. *)
Theorem handleList_unknown_type st (t : string) (more : list string) :
  Strings.ToLower t ≠ "active" →
  Strings.ToLower t ≠ "newsgroups" →
  Strings.ToLower t ≠ "overview.fmt" →
  handleList (t :: more) st
  = match ListGroups (backend (sess st)) (-1) (world st) with
    | (Ok groups, w') =>
        Done None (sending (storing st w')
                     [Line "215 list of newsgroups follows"; DotBlock ""])
    | (Err e, w') => Done (Some e) (storing st w')
    end.
Proof.
  intros Ha Hn Ho. unfold handleList, bind, call; simpl.
  destruct (decide (Strings.ToLower t = "overview.fmt")); [done|].
  destruct (ListGroups _ _ _) as [[groups|e] w']; [|done].
  unfold bind, PrintfLine, writeDot, send, ret, sending; simpl.
  assert (Hrows : String.concat "" (map (listRow (Strings.ToLower t)) groups) = "").
  { assert (Hrow : ∀ g, listRow (Strings.ToLower t) g = "").
    { intros g. unfold listRow. by rewrite !decide_False. }
    induction groups as [|g gs IH]; [done|].
    cbn [map String.concat]. rewrite Hrow, IH. by destruct (map _ gs). }
  rewrite Hrows. by rewrite <- app_assoc.
Qed.

(** *** The handler table *)

Lemma NewServer_handlers (b0 : B) (k : string) (h : Handler) :
  lookupHandler (NewServer b0) k = Some h →
  (k = "" ∧ h = handleDefault) ∨ (k = "quit" ∧ h = handleQuit)
  ∨ (k = "group" ∧ h = handleGroup) ∨ (k = "listgroup" ∧ h = handleListGroup)
  ∨ (k = "list" ∧ h = handleList) ∨ (k = "head" ∧ h = handleHead)
  ∨ (k = "body" ∧ h = handleBody) ∨ (k = "article" ∧ h = handleArticle)
  ∨ (k = "post" ∧ h = handlePost) ∨ (k = "ihave" ∧ h = handleIHave)
  ∨ (k = "capabilities" ∧ h = handleCap) ∨ (k = "mode" ∧ h = handleMode)
  ∨ (k = "authinfo" ∧ h = handleAuthInfo) ∨ (k = "newgroups" ∧ h = handleNewGroups)
  ∨ (k = "over" ∧ h = handleOver) ∨ (k = "xover" ∧ h = handleOver).
Proof.
  unfold lookupHandler, NewServer; simpl. intros Hk.
  repeat (apply lookup_insert_Some in Hk as [[<- <-]|[_ Hk]]; [tauto|]).
  by rewrite lookup_empty in Hk.
Qed.

Lemma NewServer_default (b0 : B) :
  lookupHandler (NewServer b0) "" = Some handleDefault.
Proof.
  unfold lookupHandler, NewServer; simpl.
  rewrite !lookup_insert_ne by done. apply lookup_insert_eq.
Qed.

(** The names the table does not hold. *)
Lemma NewServer_unknown (b0 : B) k :
  lookupHandler (NewServer b0) k = None
  ↔ k ∉ [""; "quit"; "group"; "listgroup"; "list"; "head"; "body"; "article";
         "post"; "ihave"; "capabilities"; "mode"; "authinfo"; "newgroups";
         "over"; "xover"].
Proof.
  unfold lookupHandler, NewServer; simpl.
  rewrite !lookup_insert_None, lookup_empty, !not_elem_of_cons.
  split; intros Hk; repeat split; try apply not_elem_of_nil;
    intros ?; subst k; tauto.
Qed.

Lemma dispatchCommand_unknown (b0 : B) cmd args :
  lookupHandler (NewServer b0) (Strings.ToLower cmd) = None →
  dispatchCommand (NewServer b0) cmd args = handleDefault args.
Proof.
  intros Hk. unfold dispatchCommand. by rewrite Hk, NewServer_default.
Qed.

(** *** Handlers that leave the selection alone *)

Lemma keeps_ret {A} (a : A) : keepsGroup (B := B) (W := W) (ret a).
Proof. by intros st a' st' [= _ <-]. Qed.

Lemma keeps_panic {A} : keepsGroup (B := B) (W := W) (panic (A := A)).
Proof. by intros st a' st'. Qed.

Lemma keeps_bind {A C} (m : @M B W A) (k : A → @M B W C) :
  keepsGroup m → (∀ a, keepsGroup (k a)) → keepsGroup (bind m k).
Proof.
  intros Hm Hk st c st'. unfold bind.
  destruct (m st) as [a st1|] eqn:Em; [|done].
  intros Ek. rewrite (Hk _ _ _ _ Ek). by apply (Hm _ _ _ Em).
Qed.

Lemma keeps_index {A} (l : list A) i : keepsGroup (B := B) (W := W) (index l i).
Proof. unfold index. destruct (l !! i); [apply keeps_ret|apply keeps_panic]. Qed.

Lemma keeps_getGroup : keepsGroup (B := B) (W := W) getGroup.
Proof. by intros st a st' [= _ <-]. Qed.

Lemma keeps_setBackend (b : B) : keepsGroup (B := B) (W := W) (setBackend b).
Proof. by intros st a st' [= _ <-]. Qed.

Lemma keeps_send w : keepsGroup (B := B) (W := W) (send w).
Proof. by intros st a st' [= _ <-]. Qed.

Lemma keeps_ReadLine : keepsGroup (B := B) (W := W) ReadLine.
Proof.
  intros st a st'. unfold ReadLine.
  destruct (input (conn st)); by intros [= _ <-].
Qed.

Lemma keeps_reading {A} (f : list string → A * list string) : keepsGroup (B := B) (W := W) (reading f).
Proof.
  intros st a st'. unfold reading.
  destruct (f _) as [a' rest]. by intros [= _ <-].
Qed.

Lemma keeps_logf e : keepsGroup (B := B) (W := W) (logf e).
Proof. by intros st a st' [= _ <-]. Qed.

Lemma keeps_call {A} (f : B → W → A * W) : keepsGroup (B := B) (W := W) (call f).
Proof.
  intros st a st'. unfold call.
  destruct (f _ _) as [a' w']. by intros [= _ <-].
Qed.

Create HintDb keeps.

#[local] Hint Resolve keeps_ret keeps_panic keeps_index keeps_getGroup
  keeps_setBackend keeps_send keeps_ReadLine keeps_reading keeps_logf
  keeps_call : keeps.

(** Follows the shape of a handler: binds, branches, then the
    primitives above. *)
Ltac keeps :=
  repeat first
    [ apply keeps_bind; [|intros ?]
    | progress (unfold PrintfLine, writeDot, headerChunks)
    | solve [auto with keeps]
    | match goal with
      | |- keepsGroup (match ?x with _ => _ end) => destruct x
      | |- keepsGroup (if ?x then _ else _) => destruct x
      | |- keepsGroup (let '(_, _) := ?x in _) => destruct x
      end ].

Lemma keeps_getArticle args : keepsGroup (B := B) (W := W) (getArticle args).
Proof. unfold getArticle. keeps. Qed.

#[local] Hint Resolve keeps_getArticle : keeps.

Lemma keeps_handleDefault args : keepsGroup (B := B) (W := W) (handleDefault args).
Proof. unfold handleDefault. keeps. Qed.

Lemma keeps_handleQuit args : keepsGroup (B := B) (W := W) (handleQuit args).
Proof. unfold handleQuit. keeps. Qed.

Lemma keeps_handleList args : keepsGroup (B := B) (W := W) (handleList args).
Proof. unfold handleList, handleListOverviewFmt. keeps. Qed.

Lemma keeps_handleHead args : keepsGroup (B := B) (W := W) (handleHead args).
Proof. unfold handleHead. keeps. Qed.

Lemma keeps_handleBody args : keepsGroup (B := B) (W := W) (handleBody args).
Proof. unfold handleBody. keeps. Qed.

Lemma keeps_handleArticle args : keepsGroup (B := B) (W := W) (handleArticle args).
Proof. unfold handleArticle. keeps. Qed.

Lemma keeps_handlePost args : keepsGroup (B := B) (W := W) (handlePost args).
Proof. unfold handlePost. keeps. Qed.

Lemma keeps_handleIHave args : keepsGroup (B := B) (W := W) (handleIHave args).
Proof. unfold handleIHave. keeps. Qed.

Lemma keeps_handleCap args : keepsGroup (B := B) (W := W) (handleCap args).
Proof. unfold handleCap. keeps. Qed.

Lemma keeps_handleMode args : keepsGroup (B := B) (W := W) (handleMode args).
Proof. unfold handleMode. keeps. Qed.

Lemma keeps_handleAuthInfo args : keepsGroup (B := B) (W := W) (handleAuthInfo args).
Proof. unfold handleAuthInfo. keeps. Qed.

Lemma keeps_handleNewGroups args : keepsGroup (B := B) (W := W) (handleNewGroups args).
Proof. unfold handleNewGroups. keeps. Qed.

Lemma keeps_handleOver args : keepsGroup (B := B) (W := W) (handleOver args).
Proof. unfold handleOver. keeps. Qed.

Lemma keeps_listGroupArticles g from to : keepsGroup (B := B) (W := W) (listGroupArticles g from to).
Proof. unfold listGroupArticles. keeps. Qed.

(** *** The selected group *)

Lemma handleGroup_selection args st r st' :
  handleGroup args st = Done r st' →
  (r ≠ None ∧ group (sess st') = group (sess st))
  ∨ (r = None ∧ ∃ g, fetched st args g ∧ group (sess st') = Some g).
Proof.
  unfold handleGroup, bind, index, call.
  destruct args as [|name rest]; simpl; [by intros [= <- <-]; left|].
  destruct (GetGroup _ _ _) as [[g|e] w'] eqn:HG; simpl.
  - intros [= <- <-]. right. split; [done|]. by exists g; split; [exists name, rest, w'|].
  - intros [= <- <-]. by left.
Qed.

Lemma handleListGroup_selection args st r st' :
  handleListGroup args st = Done r st' →
  group (sess st') = group (sess st)
  ∨ ∃ g, fetched st args g ∧ group (sess st') = Some g.
Proof.
  unfold handleListGroup, bind, getGroup.
  destruct (decide _); [by intros [= _ <-]; left|].
  destruct (parseRange _) as [from to].
  destruct (decide (from = 0)); [by intros [= _ <-]; left|].
  destruct (decide (from < 1 ∨ from > to)); [by intros [= _ <-]; left|].
  destruct (decide (length args < 1)%nat).
  - destruct (group (sess st)) as [g|] eqn:Hsel.
    + intros Hrun. left. rewrite <- Hsel. by eapply keeps_listGroupArticles.
    + destruct args; simpl in *; [done|lia].
  - unfold index, call. destruct args as [|name rest]; simpl; [done|].
    destruct (GetGroup _ _ _) as [[g|e] w'] eqn:HG; simpl.
    + intros Hrun. right. exists g. split; [by exists name, rest, w'|].
      by rewrite (keeps_listGroupArticles _ _ _ _ _ _ Hrun).
    + intros [= _ <-]. by left.
Qed.

(** Every handler of the table but the two that bind a group leaves
    the selection alone. *)
Lemma other_handlers_keep (b0 : B) k h args :
  lookupHandler (NewServer b0) k = Some h →
  k ≠ "group" → k ≠ "listgroup" → keepsGroup (h args).
Proof.
  intros Hk Hg Hl.
  destruct (NewServer_handlers _ _ _ Hk)
    as [[_ ->]|[[_ ->]|[[? _]|[[? _]|[[_ ->]|[[_ ->]|[[_ ->]|[[_ ->]|[[_ ->]
       |[[_ ->]|[[_ ->]|[[_ ->]|[[_ ->]|[[_ ->]|[[_ ->]|[_ ->]]]]]]]]]]]]]]]];
    try done;
    auto using keeps_handleDefault, keeps_handleQuit, keeps_handleList,
      keeps_handleHead, keeps_handleBody, keeps_handleArticle, keeps_handlePost,
      keeps_handleIHave, keeps_handleCap, keeps_handleMode, keeps_handleAuthInfo,
      keeps_handleNewGroups, keeps_handleOver.
Qed.

Lemma dispatchCommand_selection (b0 : B) cmd args st r st' :
  dispatchCommand (NewServer b0) cmd args st = Done r st' →
  (group (sess st') = group (sess st)
   ∨ ((Strings.ToLower cmd = "group" ∧ r = None
       ∨ Strings.ToLower cmd = "listgroup")
      ∧ ∃ g, fetched st args g ∧ group (sess st') = Some g)).
Proof.
  unfold dispatchCommand.
  destruct (lookupHandler _ (Strings.ToLower cmd)) as [h|] eqn:Hk.
  - destruct (decide (Strings.ToLower cmd = "group")) as [Hg|Hg].
    { rewrite Hg in Hk.
      destruct (NewServer_handlers _ _ _ Hk)
        as [[? _]|[[? _]|[[_ ->]|Hrest]]]; try done.
      - intros Hrun. destruct (handleGroup_selection _ _ _ _ Hrun) as [[_ ?]|[? ?]];
          [by left|right; tauto].
      - exfalso. repeat (destruct Hrest as [[? _]|Hrest]; [done|]).
        by destruct Hrest. }
    destruct (decide (Strings.ToLower cmd = "listgroup")) as [Hl|Hl].
    { rewrite Hl in Hk.
      destruct (NewServer_handlers _ _ _ Hk)
        as [[? _]|[[? _]|[[? _]|[[_ ->]|Hrest]]]]; try done.
      - intros Hrun. destruct (handleListGroup_selection _ _ _ _ Hrun) as [?|?];
          [by left|right; tauto].
      - exfalso. repeat (destruct Hrest as [[? _]|Hrest]; [done|]).
        by destruct Hrest. }
    intros Hrun. left. by eapply other_handlers_keep.
  - rewrite NewServer_default. intros Hrun. left. by eapply keeps_handleDefault.
Qed.

Lemma keeps_serve_selected (b0 : B) l st c st' :
  serve (NewServer b0) l st = Done c st' →
  group (sess st) ≠ None → group (sess st') ≠ None.
Proof.
  unfold serve, bind, logf, index; simpl.
  destruct (Strings.Split l " " !! 0%nat) as [c0|]; [simpl|done].
  destruct (dispatchCommand _ _ _ _) as [r st1|] eqn:Hrun; [|done].
  apply dispatchCommand_selection in Hrun. simpl in Hrun.
  assert (group (sess st) ≠ None → group (sess st1) ≠ None) as Hst1.
  { destruct Hrun as [->|[_ [g [_ ->]]]]; done. }
  destruct r as [[e| |m]|]; intros [= _ <-]; done.
Qed.

Lemma keeps_serveLoop_selected (b0 : B) fuel st c st' :
  serveLoop fuel (NewServer b0) st = Done c st' →
  group (sess st) ≠ None → group (sess st') ≠ None.
Proof.
  revert st. induction fuel as [|fuel IH]; intros st; simpl.
  { by intros [= _ <-]. }
  unfold bind, ReadLine.
  destruct (input (conn st)) as [|l rest]; simpl; [by intros [= _ <-]|].
  destruct (serve _ _ _) as [[] st1|] eqn:Hserve; [| |done].
  - intros Hloop Hsel. eapply IH; [done|].
    by eapply (keeps_serve_selected _ _ _ _ _ Hserve).
  - intros [= _ <-]. by eapply (keeps_serve_selected _ _ _ _ _ Hserve).
Qed.

(** The two commands that bind a group, under any spelling that
    lower-cases to their name. *)
Lemma dispatchCommand_binders (b0 : B) cmd args :
  (Strings.ToLower cmd = "group" →
   dispatchCommand (NewServer b0) cmd args = handleGroup args)
  ∧ (Strings.ToLower cmd = "listgroup" →
     dispatchCommand (NewServer b0) cmd args = handleListGroup args).
Proof. unfold dispatchCommand. split; intros ->; reflexivity. Qed.

(** [LISTGROUP] with a group the back end knows and a range that passes
    the check binds the group, whether the articles are then listed or
    not. *)
Lemma handleListGroup_binds st name more g w1 from to :
  parseRange (match more with r :: _ => r | [] => "1-" end) = (from, to) →
  1 <= from <= to →
  GetGroup (backend (sess st)) name (world st) = (Ok g, w1) →
  ∃ r st',
    handleListGroup (name :: more) st = Done r st'
    ∧ group (sess st') = Some g
    ∧ (r = None ↔ ∃ articles w2,
         GetArticles (backend (sess st)) (Some g) from to w1 = (Ok articles, w2)).
Proof.
  intros Hr Hft HG. unfold handleListGroup, bind, getGroup.
  destruct (decide ((length (name :: more) < 1)%nat ∧ _)) as [[Hl _]|_];
    [simpl in Hl; lia|].
  destruct (decide (length (name :: more) < 1)%nat) as [Hl|_]; [simpl in Hl; lia|].
  replace (match name :: more with _ :: a1 :: _ => a1 | _ => "1-" end)
    with (match more with r :: _ => r | [] => "1-" end) by by destruct more.
  rewrite Hr.
  destruct (decide (from = 0)) as [?|_]; [lia|].
  destruct (decide (from < 1 ∨ from > to)) as [?|_]; [lia|].
  unfold index, call, setGroup, listGroupArticles, bind, getGroup; simpl.
  rewrite HG. simpl. unfold call, ret; simpl.
  destruct (GetArticles _ _ _ _ _) as [[articles|e] w2] eqn:HA; simpl.
  - eexists _, _. split; [done|]. split; [done|]. split; [by eauto|done].
  - eexists _, _. split; [done|]. split; [done|].
    split; [done|]. by intros (? & ? & ?).
Qed.

(** C4 (as amended).  A session starts with no group selected.  A
    command changes the selection only when it is [GROUP] or [LISTGROUP]
    (its name as [strings.ToLower] gives it) and the back end returns a
    group for its first argument, and then that group is the one
    selected; [GROUP] changes it only when it succeeds.  So no failing
    command other than [LISTGROUP] changes the selection, and a failing
    [LISTGROUP] changes it only when its group fetch succeeded.  A
    selection is never cleared, in one command or in a whole run of the
    loop.  And the two commands do bind: [GROUP] with a name the back end
    knows returns no error and selects the group; [LISTGROUP] with such a
    name and a range that passes its check ([1-] when none is given)
    selects the group, and returns no error exactly when the articles
    are fetched.  In particular, after [GROUP g] succeeds, a
    [GROUP missing] that fails leaves [g] selected. *)
Theorem selected_group_changes (b0 : B) :
  (∀ lines w, group (sess (newSession (NewServer b0) lines w)) = None)
  ∧ (∀ cmd args st r st',
       dispatchCommand (NewServer b0) cmd args st = Done r st' →
       (group (sess st') = group (sess st)
        ∨ ((Strings.ToLower cmd = "group" ∧ r = None
            ∨ Strings.ToLower cmd = "listgroup")
           ∧ ∃ g, fetched st args g ∧ group (sess st') = Some g))
       ∧ (r ≠ None → Strings.ToLower cmd ≠ "listgroup" →
          group (sess st') = group (sess st))
       ∧ (r ≠ None → (∀ g, ¬ fetched st args g) →
          group (sess st') = group (sess st))
       ∧ (group (sess st) ≠ None → group (sess st') ≠ None))
  ∧ (∀ fuel st c st',
       serveLoop fuel (NewServer b0) st = Done c st' →
       group (sess st) ≠ None → group (sess st') ≠ None)
  ∧ (∀ cmd name rest st g w1,
       Strings.ToLower cmd = "group" →
       GetGroup (backend (sess st)) name (world st) = (Ok g, w1) →
       ∃ st', dispatchCommand (NewServer b0) cmd (name :: rest) st = Done None st'
              ∧ group (sess st') = Some g)
  ∧ (∀ cmd name more st g w1 from to,
       Strings.ToLower cmd = "listgroup" →
       parseRange (match more with r :: _ => r | [] => "1-" end) = (from, to) →
       1 <= from <= to →
       GetGroup (backend (sess st)) name (world st) = (Ok g, w1) →
       ∃ r st', dispatchCommand (NewServer b0) cmd (name :: more) st = Done r st'
                ∧ group (sess st') = Some g
                ∧ (r = None ↔ ∃ articles w2,
                     GetArticles (backend (sess st)) (Some g) from to w1
                     = (Ok articles, w2)))
  ∧ (∀ st g missing G e w1 w2,
       GetGroup (backend (sess st)) g (world st) = (Ok G, w1) →
       GetGroup (backend (sess st)) missing w1 = (Err e, w2) →
       ∃ st1 st2,
         dispatchCommand (NewServer b0) "GROUP" [g] st = Done None st1
         ∧ dispatchCommand (NewServer b0) "GROUP" [missing] st1 = Done (Some e) st2
         ∧ group (sess st1) = Some G
         ∧ group (sess st2) = Some G).
Proof.
  split; [done|]. split; [|split; [|split; [|split]]].
  - intros cmd args st r st' Hrun.
    pose proof (dispatchCommand_selection _ _ _ _ _ _ Hrun) as Hsel.
    split; [done|]. repeat split.
    + intros Hr Hl. destruct Hsel as [?|[[[_ ?]|?] _]]; done.
    + intros Hr Hno. destruct Hsel as [?|[_ [g [Hg _]]]]; [done|].
      by destruct (Hno g).
    + intros Hsome. destruct Hsel as [->|[_ [g [_ ->]]]]; done.
  - apply keeps_serveLoop_selected.
  - intros cmd name rest st g w1 Hcmd HG.
    destruct (dispatchCommand_binders b0 cmd (name :: rest)) as [Hd _].
    rewrite (Hd Hcmd), (handleGroup_found _ _ _ _ _ HG). by eexists.
  - intros cmd name more st g w1 from to Hcmd Hr Hft HG.
    destruct (dispatchCommand_binders b0 cmd (name :: more)) as [_ Hd].
    rewrite (Hd Hcmd). by eapply handleListGroup_binds.
  - intros st g missing G e w1 w2 HG HM.
    assert (Hd : ∀ args, dispatchCommand (NewServer b0) "GROUP" args = handleGroup args).
    { intros args. reflexivity. }
    rewrite !Hd. eexists _, _.
    split; [by apply handleGroup_found|].
    split; [by apply handleGroup_not_found|]. done.
Qed.

(** *** The dispatcher and one turn of the loop *)

Lemma lower_ascii_ASCII c :
  (N_of_ascii c <? 128)%N = true →
  (N_of_ascii (Strings.lower_ascii c) <? 128)%N = true
  ∧ Strings.lower_ascii (Strings.lower_ascii c) = Strings.lower_ascii c.
Proof. destruct c as [[] [] [] [] [] [] [] []]; try discriminate; by split. Qed.

(** On a text that is all ASCII, [strings.ToLower] is the byte-wise
    map, its result is all ASCII, and lower-casing it again changes
    nothing. *)
Lemma ToLower_ASCII s :
  Strings.isASCII s = true →
  Strings.ToLower s = Strings.lowerASCII s
  ∧ Strings.isASCII (Strings.lowerASCII s) = true
  ∧ Strings.ToLower (Strings.ToLower s) = Strings.ToLower s.
Proof.
  intros Hs.
  assert (Hl : Strings.isASCII (Strings.lowerASCII s) = true
               ∧ Strings.lowerASCII (Strings.lowerASCII s) = Strings.lowerASCII s).
  { induction s as [|c r IH]; simpl in *; [done|].
    apply andb_true_iff in Hs as [Hc Hr]. destruct (IH Hr) as [IH1 IH2].
    destruct (lower_ascii_ASCII c Hc) as [Hc1 Hc2].
    by rewrite Hc1, IH1, Hc2, IH2. }
  destruct Hl as [Hl1 Hl2]. unfold Strings.ToLower. by rewrite Hs, Hl1, Hl2.
Qed.

Lemma serve_outcome (srv : Server) l st c rest :
  Strings.Split l " " = c :: rest →
  serve srv l st
  = match dispatchCommand srv c rest (logging st [LogGotCmd (c :: rest)]) with
    | Done None st1 => Done true st1
    | Done (Some EOF) st1 => Done false st1
    | Done (Some (NNTP e)) st1 =>
        Done true (sending st1 [Line (Sprintf0 missingOperands (Error e))])
    | Done (Some (OtherError m)) st1 =>
        Done false (logging st1 [LogDispatchError (OtherError m)])
    | Panic => Panic
    end.
Proof.
  intros Hs. unfold serve, bind, logf, index. rewrite Hs. simpl.
  replace (if decide (1 < S (length rest))%nat then rest else []) with rest
    by (destruct rest; [done|]; by rewrite decide_True by (simpl; lia)).
  destruct (dispatchCommand _ _ _ _) as [[[e| |m]|] st1|]; reflexivity.
Qed.

(** C9, what the loop does with the result of a handler, and where it
    fails the claim.  The command is looked up by its lower-case form as
    [strings.ToLower] gives it, so two spellings with the same lower-case
    form run the same handler; for a command that is all ASCII that form
    is the byte-wise one, and it runs the handler of the command.  The
    lookup fails exactly for the forms that are none of the sixteen names
    of the table of [NewServer]; such a command yields the one line
    [500 Unknown command], and the loop goes on with the session as it
    was.  When the handler returns [io.EOF] the loop ends with nothing
    more sent or logged.  Any other error that is no [NNTPError] is
    logged and the loop ends.  The loop takes its next turn exactly when a
    turn says to go on, and is over (the connection closed) otherwise.
    When the handler returns an [NNTPError], one line is added to what the
    handler sent and the loop goes on; but the text [code reason] is
    given to [PrintfLine] as its format, not as an operand: the line is
    [code reason] only when that text holds no per-cent sign. *)
Theorem serve_error_mapping (b0 : B) (srv : Server) :
  (∀ cmd cmd' args,
     Strings.ToLower cmd = Strings.ToLower cmd' →
     dispatchCommand srv cmd args = dispatchCommand srv cmd' args)
  ∧ (∀ cmd args, Strings.isASCII cmd = true →
       Strings.ToLower cmd = Strings.lowerASCII cmd
       ∧ dispatchCommand srv (Strings.ToLower cmd) args = dispatchCommand srv cmd args)
  ∧ (∀ k, lookupHandler (NewServer b0) k = None
          ↔ k ∉ [""; "quit"; "group"; "listgroup"; "list"; "head"; "body";
                 "article"; "post"; "ihave"; "capabilities"; "mode"; "authinfo";
                 "newgroups"; "over"; "xover"])
  ∧ (∀ l c rest st,
       Strings.Split l " " = c :: rest →
       lookupHandler (NewServer b0) (Strings.ToLower c) = None →
       serve (NewServer b0) l st
       = Done true (sending (logging st [LogGotCmd (c :: rest)])
                      [Line "500 Unknown command"])
       ∧ sess (sending (logging st [LogGotCmd (c :: rest)])
                 [Line "500 Unknown command"]) = sess st)
  ∧ (∀ l c rest st e st1,
       Strings.Split l " " = c :: rest →
       dispatchCommand srv c rest (logging st [LogGotCmd (c :: rest)])
       = Done (Some (NNTP e)) st1 →
       serve srv l st
       = Done true (sending st1 [Line (Sprintf0 missingOperands (Error e))])
       ∧ (Strings.contains (Error e) "%" = false →
          Sprintf0 missingOperands (Error e)
          = Strconv.FormatInt (Code e) +:+ " " +:+ Msg e))
  ∧ (∀ l c rest st st1,
       Strings.Split l " " = c :: rest →
       dispatchCommand srv c rest (logging st [LogGotCmd (c :: rest)])
       = Done (Some EOF) st1 →
       serve srv l st = Done false st1)
  ∧ (∀ l c rest st m st1,
       Strings.Split l " " = c :: rest →
       dispatchCommand srv c rest (logging st [LogGotCmd (c :: rest)])
       = Done (Some (OtherError m)) st1 →
       serve srv l st = Done false (logging st1 [LogDispatchError (OtherError m)]))
  ∧ (∀ fuel l more st,
       input (conn st) = l :: more →
       serveLoop (S fuel) srv st
       = match serve srv l (leaving st more) with
         | Done true st1 => serveLoop fuel srv st1
         | Done false st1 => Done true st1
         | Panic => Panic
         end).
Proof.
  split; [|split; [|split; [|split; [|split; [|split; [|split]]]]]].
  - intros cmd cmd' args Heq. unfold dispatchCommand. by rewrite Heq.
  - intros cmd args Hcmd. destruct (ToLower_ASCII cmd Hcmd) as (Hl & _ & Hidem).
    split; [done|]. unfold dispatchCommand. by rewrite Hidem.
  - apply NewServer_unknown.
  - intros l c rest st Hs Hk. split; [|done].
    rewrite (serve_outcome _ _ _ _ _ Hs).
    by rewrite (dispatchCommand_unknown _ _ _ Hk).
  - intros l c rest st e st1 Hs Hrun. split.
    + by rewrite (serve_outcome _ _ _ _ _ Hs), Hrun.
    + intros Hp. unfold Sprintf0. by rewrite Hp.
  - intros l c rest st st1 Hs Hrun.
    by rewrite (serve_outcome _ _ _ _ _ Hs), Hrun.
  - intros l c rest st m st1 Hs Hrun.
    by rewrite (serve_outcome _ _ _ _ _ Hs), Hrun.
  - intros fuel l more st Hin. simpl. unfold bind, ReadLine. rewrite Hin.
    by destruct (serve _ _ _) as [[] st1|].
Qed.

(** *** AUTHINFO *)

(** X21.  What [AUTHINFO USER] does when the client's next line is
    well-formed: [250 authenticated] at once when the back end is
    already authorized; otherwise [350 Continue], then 501 when the line
    does not start with [AUTHINFO PASS], else the answer of
    [Authenticate]: 250 and the back end swapped for the one returned, if
    any, or the error with the back end as it was. *)
Lemma handleAuthInfo_exchange st op user more :
  Strings.ToLower op = "user" →
  (∀ w', Authorized (backend (sess st)) (world st) = (true, w') →
         handleAuthInfo (op :: user :: more) st
         = Done None (sending (storing st w') [Line "250 authenticated"]))
  ∧ (∀ w' l rest p0 others,
       Authorized (backend (sess st)) (world st) = (false, w') →
       input (conn st) = l :: rest →
       Strings.SplitN l " " 3 = p0 :: others →
       Strings.ToLower p0 ≠ "authinfo" →
       handleAuthInfo (op :: user :: more) st
       = Done (Some (NNTP ErrSyntax))
           (leaving (sending (storing st w') [Line "350 Continue"]) rest))
  ∧ (∀ w' l rest p0 p1 others,
       Authorized (backend (sess st)) (world st) = (false, w') →
       input (conn st) = l :: rest →
       Strings.SplitN l " " 3 = p0 :: p1 :: others →
       Strings.ToLower p1 ≠ "pass" →
       handleAuthInfo (op :: user :: more) st
       = Done (Some (NNTP ErrSyntax))
           (leaving (sending (storing st w') [Line "350 Continue"]) rest))
  ∧ (∀ w' l rest p0 p1 pass,
       Authorized (backend (sess st)) (world st) = (false, w') →
       input (conn st) = l :: rest →
       Strings.SplitN l " " 3 = [p0; p1; pass] →
       Strings.ToLower p0 = "authinfo" → Strings.ToLower p1 = "pass" →
       handleAuthInfo (op :: user :: more) st
       = let asked := leaving (sending (storing st w') [Line "350 Continue"]) rest in
         match Authenticate (backend (sess st)) user pass w' with
         | (Ok None, w2) =>
             Done None (sending (storing asked w2) [Line "250 authenticated"])
         | (Ok (Some b'), w2) =>
             Done None (swapping (sending (storing asked w2) [Line "250 authenticated"]) b')
         | (Err e, w2) => Done (Some e) (storing asked w2)
         end).
Proof.
  intros Hop.
  assert (Hhead : ∀ w', Authorized (backend (sess st)) (world st) = (false, w') →
    ∀ l rest, input (conn st) = l :: rest →
    handleAuthInfo (op :: user :: more) st
    = match Strings.SplitN l " " 3 !! 0%nat with
      | None => Panic
      | Some p0 =>
          if decide (Strings.ToLower p0 ≠ "authinfo")
          then Done (Some (NNTP ErrSyntax))
                 (leaving (sending (storing st w') [Line "350 Continue"]) rest)
          else
            match Strings.SplitN l " " 3 !! 1%nat with
            | None => Panic
            | Some p1 =>
                if bool_decide (Strings.ToLower p1 ≠ "pass")
                then Done (Some (NNTP ErrSyntax))
                       (leaving (sending (storing st w') [Line "350 Continue"]) rest)
                else
                  match Strings.SplitN l " " 3 !! 2%nat with
                  | None => Panic
                  | Some pass =>
                      let asked :=
                        leaving (sending (storing st w') [Line "350 Continue"]) rest in
                      match Authenticate (backend (sess st)) user pass w' with
                      | (Ok None, w2) =>
                          Done None
                            (sending (storing asked w2) [Line "250 authenticated"])
                      | (Ok (Some b'), w2) =>
                          Done None
                            (swapping (sending (storing asked w2)
                                         [Line "250 authenticated"]) b')
                      | (Err e, w2) => Done (Some e) (storing asked w2)
                      end
                  end
            end
      end).
  { intros w' HA l rest Hin.
    unfold handleAuthInfo, bind, index, call, ReadLine; cbn -[Strings.SplitN].
    rewrite decide_False by lia.
    rewrite decide_False by (by intros Hne; apply Hne).
    rewrite HA; cbn -[Strings.SplitN]. rewrite Hin.
    destruct (Strings.SplitN l " " 3 !! 0%nat) as [p0|]; [|done].
    cbn -[Strings.SplitN].
    destruct (decide (Strings.ToLower p0 ≠ "authinfo")); [done|].
    destruct (Strings.SplitN l " " 3 !! 1%nat) as [p1|]; [|done].
    cbn -[Strings.SplitN].
    destruct (bool_decide (Strings.ToLower p1 ≠ "pass")); [done|].
    destruct (Strings.SplitN l " " 3 !! 2%nat) as [pass|]; [|done].
    cbn -[Strings.SplitN].
    by destruct (Authenticate _ _ _ _) as [[[b'|]|e] w2]. }
  split; [|split; [|split]].
  - intros w' HA. unfold handleAuthInfo, bind, index, call; simpl.
    rewrite decide_False by (by intros Hne; apply Hne). by rewrite HA.
  - intros w' l rest p0 others HA Hin Hsplit Hp0.
    rewrite (Hhead _ HA _ _ Hin), Hsplit. simpl. by rewrite decide_True.
  - intros w' l rest p0 p1 others HA Hin Hsplit Hp1.
    rewrite (Hhead _ HA _ _ Hin), Hsplit. simpl.
    destruct (decide (Strings.ToLower p0 ≠ "authinfo")); [done|].
    by rewrite bool_decide_true.
  - intros w' l rest p0 p1 pass HA Hin Hsplit Hp0 Hp1.
    rewrite (Hhead _ HA _ _ Hin), Hsplit. simpl.
    rewrite decide_False by (by intros Hne; apply Hne).
    by rewrite bool_decide_false by (by intros Hne; apply Hne).
Qed.

(** C8, where the code fails the claim: after [350 Continue] the
    handler indexes the fields of the client's next line without looking
    at how many there are.  A line whose only field is [AUTHINFO], or
    whose two fields are [AUTHINFO PASS], in whatever case, is not
    answered with 501: the handler panics. *)
Theorem handleAuthInfo_short_reply_panics st op user more l rest w' :
  Strings.ToLower op = "user" →
  Authorized (backend (sess st)) (world st) = (false, w') →
  input (conn st) = l :: rest →
  (∀ p0, Strings.SplitN l " " 3 = [p0] → Strings.ToLower p0 = "authinfo" →
         handleAuthInfo (op :: user :: more) st = Panic)
  ∧ (∀ p0 p1, Strings.SplitN l " " 3 = [p0; p1] →
         Strings.ToLower p0 = "authinfo" → Strings.ToLower p1 = "pass" →
         handleAuthInfo (op :: user :: more) st = Panic).
Proof.
  intros Hop HA Hin. split.
  - intros p0 Hsplit Hp0.
    unfold handleAuthInfo, bind, index, call, ReadLine; cbn -[Strings.SplitN].
    rewrite decide_False by lia.
    rewrite decide_False by (by intros Hne; apply Hne).
    rewrite HA; cbn -[Strings.SplitN]. rewrite Hin, Hsplit; simpl.
    by rewrite decide_False by (by intros Hne; apply Hne).
  - intros p0 p1 Hsplit Hp0 Hp1.
    unfold handleAuthInfo, bind, index, call, ReadLine; cbn -[Strings.SplitN].
    rewrite decide_False by lia.
    rewrite decide_False by (by intros Hne; apply Hne).
    rewrite HA; cbn -[Strings.SplitN]. rewrite Hin, Hsplit; simpl.
    rewrite decide_False by (by intros Hne; apply Hne). simpl.
    by rewrite bool_decide_false by (by intros Hne; apply Hne).
Qed.
End Facts.

(** ** The header formatter *)

(** [string_le] is a total preorder: the order [sort.Strings] sorts by. *)
#[global] Instance string_le_total : Total string_le.
Proof. intros a b. apply String.leb_total. Qed.

Lemma string_compare_trans_le a : ∀ b c,
  String.compare a b ≠ Gt → String.compare b c ≠ Gt → String.compare a c ≠ Gt.
Proof.
  induction a as [|x a IH]; intros [|y b] [|z c]; simpl; try done.
  unfold Ascii.compare.
  destruct (N.compare_spec (N_of_ascii x) (N_of_ascii y)) as [Exy|Lxy|Gxy];
    destruct (N.compare_spec (N_of_ascii y) (N_of_ascii z)) as [Eyz|Lyz|Gyz];
    try done.
  - rewrite Exy, Eyz, N.compare_refl. apply IH.
  - intros _ _. rewrite Exy. by rewrite (proj2 (N.compare_lt_iff _ _) Lyz).
  - intros _ _. rewrite <- Eyz. by rewrite (proj2 (N.compare_lt_iff _ _) Lxy).
  - intros _ _. by rewrite (proj2 (N.compare_lt_iff _ _) (N.lt_trans _ _ _ Lxy Lyz)).
Qed.

#[global] Instance string_le_trans : Transitive string_le.
Proof.
  intros a b c. unfold string_le, String.leb.
  pose proof (string_compare_trans_le a b c) as Ht.
  destruct (String.compare a b), (String.compare b c), (String.compare a c);
    try done; intros _ _; exfalso; by apply Ht.
Qed.

(** The table of preferred names before the map is ranged over. *)
Lemma hasImportantKeys_initially (k : string) :
  foldl (fun (m : gmap string bool) v => <[v := false]> m) ∅ order !! k
  = if decide (k ∈ order) then Some false else None.
Proof.
  unfold order; simpl. rewrite !lookup_insert, lookup_empty.
  repeat case_decide; subst; try done; exfalso;
    repeat match goal with
           | Hn : ¬ _ ∈ _ |- _ => apply Hn; clear Hn
           | Hi : _ ∈ _ :: _ |- _ => apply elem_of_cons in Hi as [?|Hi]; [done|]
           | Hi : _ ∈ [] |- _ => by inversion Hi
           | |- ?x ∈ ?x :: _ => by left
           | |- _ ∈ _ :: _ => right
           end.
Qed.

(** The first loop of [sendHeaders]: a flag is raised for each preferred
    name it meets, the other names are collected in the order met. *)
Lemma classify_loop (ks : list string) : ∀ (hik : gmap string bool) keys,
  ∃ hik',
    foldl classify (hik, keys) ks
    = (hik', keys ++ filter (fun k => hik !! k = None) ks)
    ∧ ∀ k, hik' !! k
           = if decide (k ∈ ks ∧ is_Some (hik !! k)) then Some true else hik !! k.
Proof.
  induction ks as [|k0 ks IH]; intros hik keys; cbn [foldl].
  { exists hik. split; [by rewrite app_nil_r|].
    intros k. case_decide as Hc; [|done]. destruct Hc as [Hin _]. by inversion Hin. }
  unfold classify at 2. destruct (hik !! k0) as [flag|] eqn:Hk0.
  - destruct (IH (<[k0 := true]> hik) keys) as (hik' & -> & Hlook).
    exists hik'. split.
    + f_equal. f_equal. rewrite filter_cons_False by (rewrite Hk0; done).
      apply list_filter_iff. intros k. rewrite lookup_insert.
      case_decide; subst; [rewrite Hk0; split; intros [=]|done].
    + intros k. rewrite Hlook, lookup_insert.
      destruct (decide (k0 = k)) as [->|Hne].
      * rewrite Hk0. destruct (decide (k ∈ ks ∧ _)) as [_|_].
        all: case_decide as Hc2; [done|]; exfalso; apply Hc2; split; [left|eauto].
      * apply decide_ext. rewrite elem_of_cons.
        split; [intros [? ?]; split; [by right|done]|].
        intros [[->|?] ?]; [done|by split].
  - destruct (IH hik (keys ++ [k0])) as (hik' & -> & Hlook).
    exists hik'. split.
    + f_equal. rewrite filter_cons_True by done. by rewrite <- app_assoc.
    + intros k. rewrite Hlook. apply decide_ext. rewrite elem_of_cons.
      split; [intros [? ?]; split; [by right|done]|].
      intros [[->|?] Hs]; [|done]. rewrite Hk0 in Hs. by destruct Hs.
Qed.

(** [writeHeaders] succeeds exactly as long as no header is without a
    value, and then writes the lines of each header in turn. *)
Lemma writeHeaders_lines (newOrder : list (string * list string)) :
  Forall (fun kv => kv.2 ≠ []) newOrder →
  writeHeaders newOrder
  = Some (flat_map (fun kv => map (fun v => kv.1 +:+ ": " +:+ v +:+ CRLF) kv.2) newOrder).
Proof.
  induction 1 as [|[k v] rest Hv _ IH]; simpl; [done|].
  destruct v as [|v0 vs]; [done|]. simpl. by rewrite IH.
Qed.

Lemma writeHeaders_panics (newOrder : list (string * list string)) k :
  (k, []) ∈ newOrder → writeHeaders newOrder = None.
Proof.
  induction newOrder as [|[k' v] rest IH]; [by inversion 1|].
  rewrite elem_of_cons. intros [[= <- <-]|Hin]; simpl; [done|].
  destruct (headerLines k' v); [|done]. by rewrite (IH Hin).
Qed.

(** What [sendHeaders] hands to its last loop: the preferred names that
    are keys of the map, in their order, then the other keys, sorted. *)
Lemma sendHeaders_newOrder (header : gmap string (list string)) :
  sendHeaders header
  = writeHeaders
      (map (fun k => (k, default [] (header !! k)))
         (filter (fun k => is_Some (header !! k)) order
          ++ merge_sort string_le
               (filter (fun k => k ∉ order) (map_to_list header).*1))).
Proof.
  unfold sendHeaders.
  destruct (classify_loop (map_to_list header).*1
              (foldl (fun (m : gmap string bool) v => <[v := false]> m) ∅ order) [])
    as (hik' & -> & Hlook).
  f_equal. rewrite map_app. f_equal.
  - assert (Hflag : ∀ k, k ∈ order →
      default false (hik' !! k) = bool_decide (is_Some (header !! k))).
    { intros k Hk. rewrite Hlook, hasImportantKeys_initially.
      destruct (decide (k ∈ order)) as [_|]; [|done].
      assert (k ∈ (map_to_list header).*1 ↔ is_Some (header !! k)) as Hdom.
      { rewrite list_elem_of_fmap. split.
        - intros ([k' v] & -> & Hin). apply elem_of_map_to_list in Hin. eauto.
        - intros [v Hv]. exists (k, v). split; [done|]. by apply elem_of_map_to_list. }
      case_decide as Hc.
      - simpl. symmetry. apply bool_decide_eq_true. by apply Hdom, Hc.
      - simpl. symmetry. apply bool_decide_eq_false. intros Hs. apply Hc.
        split; [by apply Hdom|eauto]. }
    revert Hflag. generalize order. intros l. induction l as [|k l IH]; [done|].
    intros Hflag. simpl. rewrite Hflag by left.
    rewrite filter_cons. destruct (decide (is_Some (header !! k))) as [Hs|Hs].
    + rewrite bool_decide_eq_true_2 by done. simpl. f_equal.
      apply IH. intros k' Hk'. apply Hflag. by right.
    + rewrite bool_decide_eq_false_2 by done.
      apply IH. intros k' Hk'. apply Hflag. by right.
  - simpl. f_equal. f_equal. apply list_filter_iff. intros k.
    rewrite hasImportantKeys_initially. by case_decide.
Qed.

Lemma header_keys (header : gmap string (list string)) k :
  k ∈ (map_to_list header).*1 ↔ is_Some (header !! k).
Proof.
  rewrite list_elem_of_fmap. split.
  - intros ([k' v] & -> & Hin). apply elem_of_map_to_list in Hin. by exists v.
  - intros [v Hv]. exists (k, v). split; [done|]. by apply elem_of_map_to_list.
Qed.

(** C6.  For a header map in which every name has at least one value,
    [sendHeaders] writes, for each name of a list and in the list's order,
    one line [Name: value] per value of the name, in the order of the
    values.  The list starts with the preferred names [Subject], [From],
    [Date], [Message-Id], [References], in that order, each there if and
    only if it is a key of the map; all the other keys of the map follow,
    each once, in ascending byte-wise order. *)
Theorem sendHeaders_order (header : gmap string (list string)) :
  (∀ k vs, header !! k = Some vs → vs ≠ []) →
  ∃ rest : list string,
    sendHeaders header
    = Some (flat_map
              (fun k => map (fun v => k +:+ ": " +:+ v +:+ CRLF)
                            (default [] (header !! k)))
              (filter (fun k => is_Some (header !! k))
                      ["Subject"; "From"; "Date"; "Message-Id"; "References"]
               ++ rest))
    ∧ StronglySorted string_le rest
    ∧ NoDup rest
    ∧ ∀ k, k ∈ rest
           ↔ is_Some (header !! k)
             ∧ k ∉ ["Subject"; "From"; "Date"; "Message-Id"; "References"].
Proof.
  intros Hvalues.
  exists (merge_sort string_le (filter (fun k => k ∉ order) (map_to_list header).*1)).
  assert (Hperm : merge_sort string_le
                    (filter (fun k => k ∉ order) (map_to_list header).*1)
                  ≡ₚ filter (fun k => k ∉ order) (map_to_list header).*1)
    by apply merge_sort_Permutation.
  split; [|split; [|split]].
  - rewrite sendHeaders_newOrder, writeHeaders_lines.
    + f_equal. by rewrite flat_map_concat_map, map_map, <- flat_map_concat_map.
    + apply Forall_forall. intros [k v] Hin.
      apply list_elem_of_In, in_map_iff in Hin as (k' & [= <- <-] & Hk').
      apply list_elem_of_In in Hk'. simpl. assert (is_Some (header !! k')) as [vs Hvs].
      { apply elem_of_app in Hk' as [Hk'|Hk'].
        - by apply list_elem_of_filter in Hk' as [? _].
        - rewrite Hperm in Hk'. apply list_elem_of_filter in Hk' as [_ Hk'].
          by apply header_keys. }
      rewrite Hvs. simpl. by eapply Hvalues.
  - apply StronglySorted_merge_sort; apply _.
  - rewrite Hperm. apply NoDup_filter, NoDup_fst_map_to_list.
  - intros k. rewrite Hperm, list_elem_of_filter, header_keys. tauto.
Qed.

(** Without the condition on the values the formatter can panic: a name
    bound to an empty list of values makes [hdr.v[0]] index an empty
    slice. *)
Lemma sendHeaders_panics (header : gmap string (list string)) k :
  header !! k = Some [] → sendHeaders header = None.
Proof.
  intros Hk. rewrite sendHeaders_newOrder. apply (writeHeaders_panics _ k).
  apply list_elem_of_In, in_map_iff. exists k. rewrite Hk. split; [done|].
  apply list_elem_of_In.
  destruct (decide (k ∈ order)) as [Hin|Hout].
  - apply elem_of_app. left. apply list_elem_of_filter. by split; [eexists|].
  - apply elem_of_app. right. rewrite merge_sort_Permutation.
    apply list_elem_of_filter. split; [done|]. apply header_keys. by eexists.
Qed.

(* ===================================================================== *)
(** * The engine on the demo back end                                    *)
(* ===================================================================== *)

(** C1, the claim as stated fails: [GROUP] without an argument answers
    with the 411 error, not with the 412 error. *)
Lemma handleGroup_no_argument_is_411 :
  handleGroup [] (Demo.start true None [])
  = Done (Some (NNTP ErrNoSuchGroup)) (Demo.start true None [])
  ∧ Code ErrNoSuchGroup = 411
  ∧ handleGroup [] (Demo.start true None [])
    ≠ Done (Some (NNTP ErrNoGroupSelected)) (Demo.start true None []).
Proof. split; [reflexivity|]. split; [reflexivity|]. discriminate. Qed.

(** C4, the claim as stated fails: with [misc.test] selected and the
    storage off line, [LISTGROUP comp.lang.go] fails (the articles cannot
    be fetched) and yet leaves [comp.lang.go] selected. *)
Lemma listgroup_failure_rebinds :
  dispatchCommand (NewServer false) "LISTGROUP" ["comp.lang.go"]
    (Demo.start false (Some Demo.misc) [])
  = Done (Some (OtherError "storage is off line"))
      (selecting (Demo.start false (Some Demo.misc) []) (Some Demo.golang))
  ∧ group (sess (selecting (Demo.start false (Some Demo.misc) []) (Some Demo.golang)))
    ≠ group (sess (Demo.start false (Some Demo.misc) [])).
Proof. split; [reflexivity|]. discriminate. Qed.

(** C6, the claim as stated fails: in this map [From] has a value and
    [Subject] has none; the formatter panics and writes neither. *)
Lemma sendHeaders_empty_value_panics :
  Demo.hollow !! "Subject" = Some []
  ∧ Demo.hollow !! "From" = Some ["a@demo"]
  ∧ sendHeaders Demo.hollow = None.
Proof. repeat split; reflexivity. Qed.

(** C6 at the headers of the demo article. *)
Lemma sendHeaders_order_witness :
  (∀ k vs, Nntp.Header Demo.hello !! k = Some vs → vs ≠ [])
  ∧ ∃ rest : list string,
      sendHeaders (Nntp.Header Demo.hello)
      = Some (flat_map
                (fun k => map (fun v => k +:+ ": " +:+ v +:+ CRLF)
                              (default [] (Nntp.Header Demo.hello !! k)))
                (filter (fun k => is_Some (Nntp.Header Demo.hello !! k))
                        ["Subject"; "From"; "Date"; "Message-Id"; "References"]
                 ++ rest))
      ∧ StronglySorted string_le rest
      ∧ NoDup rest
      ∧ ∀ k, k ∈ rest
             ↔ is_Some (Nntp.Header Demo.hello !! k)
               ∧ k ∉ ["Subject"; "From"; "Date"; "Message-Id"; "References"].
Proof.
  assert (Hvalues : ∀ k vs, Nntp.Header Demo.hello !! k = Some vs → vs ≠ []).
  { intros k vs. unfold Demo.hello; simpl. rewrite !lookup_insert, lookup_empty.
    repeat case_decide; by intros [= <-]. }
  split; [exact Hvalues|]. exact (sendHeaders_order (Nntp.Header Demo.hello) Hvalues).
Defined.

(** C8 on the demo server: the client answers [350 Continue] with
    [AUTHINFO PASS] and no password. *)
Lemma handleAuthInfo_short_reply_witness :
  Strings.ToLower "USER" = "user"
  ∧ Authorized (backend (sess (Demo.start true None ["AUTHINFO PASS"])))
               (world (Demo.start true None ["AUTHINFO PASS"])) = (false, true)
  ∧ input (conn (Demo.start true None ["AUTHINFO PASS"])) = ["AUTHINFO PASS"]
  ∧ handleAuthInfo ["USER"; "alice"] (Demo.start true None ["AUTHINFO PASS"]) = Panic.
Proof.
  split; [reflexivity|]. split; [reflexivity|]. split; [reflexivity|].
  exact (proj2 (handleAuthInfo_short_reply_panics
                  (Demo.start true None ["AUTHINFO PASS"]) "USER" "alice" []
                  "AUTHINFO PASS" [] true eq_refl eq_refl eq_refl)
               "AUTHINFO" "PASS" eq_refl eq_refl eq_refl).
Defined.

(** C10 on the demo server: [LIST Foo]. *)
Lemma handleList_unknown_type_witness :
  Strings.ToLower "Foo" ≠ "active"
  ∧ Strings.ToLower "Foo" ≠ "newsgroups"
  ∧ Strings.ToLower "Foo" ≠ "overview.fmt"
  ∧ handleList ["Foo"] (Demo.start true None [])
    = Done None (sending (Demo.start true None [])
                   [Line "215 list of newsgroups follows"; DotBlock ""]).
Proof.
  assert (Ha : Strings.ToLower "Foo" ≠ "active") by discriminate.
  assert (Hn : Strings.ToLower "Foo" ≠ "newsgroups") by discriminate.
  assert (Ho : Strings.ToLower "Foo" ≠ "overview.fmt") by discriminate.
  split; [exact Ha|]. split; [exact Hn|]. split; [exact Ho|].
  exact (handleList_unknown_type (Demo.start true None []) "Foo" [] Ha Hn Ho).
Defined.

(** The thirteen errors the engine defines hold no per-cent sign: the
    loop prints each of them as [code reason], whatever [fmt] does with
    verbs that lack an operand. *)
Lemma engine_errors_print_verbatim (missing : string → string) :
  Forall (fun e => Sprintf0 missing (Error e) = Error e)
    [ErrNoSuchGroup; ErrNoGroupSelected; ErrInvalidMessageID;
     ErrInvalidArticleNumber; ErrNoCurrentArticle; ErrUnknownCommand;
     ErrSyntax; ErrPostingNotPermitted; ErrPostingFailed; ErrNotWanted;
     ErrAuthRequired; ErrAuthRejected; ErrNotAuthenticated].
Proof. repeat constructor. Qed.

(** The failing inputs of C2 through the whole of [Process]: the server
    panics on [OVER] without a range once a group is selected, on [IHAVE]
    without a message-id, and on [AUTHINFO PASS] without a password. *)
Example Process_panics :
  Process 5 (NewServer false) ["GROUP misc.test"; "OVER"] true = Panic
  ∧ Process 5 (NewServer false) ["IHAVE"] true = Panic
  ∧ Process 5 (NewServer false) ["AUTHINFO USER alice"; "AUTHINFO PASS"] true = Panic.
Proof. vm_compute. repeat split. Qed.

(** The failing input of C9 through the whole of [Process]: the storage
    is off line and [POST] fails with the reason [spool is at 100%]; the
    line the client gets is not [441 spool is at 100%]. *)
Example Process_garbles_reason :
  match Process 5 (NewServer false) ["POST"; ""; "."] false with
  | Done true st =>
      output (conn st)
      = [Line "200 Hello!"; Line "340 Go ahead"; Line "441 spool is at 100%!(NOVERB)"]
  | _ => False
  end.
Proof. vm_compute. reflexivity. Qed.

(** The scenarios of the specification that the demo back end can play:
    [QUIT]; [GROUP misc.test]; a failing [GROUP] after it; [ARTICLE]
    with no group selected;
    [LISTGROUP badgroup 0-5]; a rejected [AUTHINFO]. *)
Example Process_scenarios :
  match Process 5 (NewServer false) ["QUIT"] true with
  | Done true st => output (conn st) = [Line "200 Hello!"; Line "205 bye"]
  | _ => False
  end
  ∧ match Process 5 (NewServer false) ["GROUP misc.test"] true with
    | Done true st =>
        output (conn st) = [Line "200 Hello!"; Line "211 3 1 3 misc.test"]
    | _ => False
    end
  ∧ match Process 5 (NewServer false) ["GROUP misc.test"; "GROUP missing"] true with
    | Done true st =>
        output (conn st)
        = [Line "200 Hello!"; Line "211 3 1 3 misc.test"; Line "411 No such newsgroup"]
        ∧ group (sess st) = Some Demo.misc
    | _ => False
    end
  ∧ match Process 5 (NewServer false) ["ARTICLE"] true with
    | Done true st =>
        output (conn st) = [Line "200 Hello!"; Line "412 No newsgroup selected"]
    | _ => False
    end
  ∧ match Process 5 (NewServer false) ["LISTGROUP badgroup 0-5"] true with
    | Done true st =>
        output (conn st)
        = [Line "200 Hello!"; Line "501 not supported, or syntax error"]
    | _ => False
    end
  ∧ match Process 5 (NewServer false)
            ["AUTHINFO USER alice"; "AUTHINFO PASS bad"] true with
    | Done true st =>
        output (conn st)
        = [Line "200 Hello!"; Line "350 Continue"; Line "452 authorization rejected"]
    | _ => False
    end.
Proof. vm_compute. repeat split. Qed.

(** A command that is not all ASCII goes through Unicode's tables: the
    line [QU], U+0130, [T] lower-cases to [quit] and ends the session,
    and [L], U+0130, [STGROUP misc.test] selects the group. *)
Example Process_lowercases_runes :
  let dotted := String (ascii_of_nat 196) (String (ascii_of_nat 176) "") in
  Strings.ToLower ("QU" +:+ dotted +:+ "T") = "quit"
  ∧ match Process 5 (NewServer false) ["QU" +:+ dotted +:+ "T"; "GROUP misc.test"] true with
    | Done true st =>
        output (conn st) = [Line "200 Hello!"; Line "205 bye"]
        ∧ input (conn st) = ["GROUP misc.test"]
    | _ => False
    end
  ∧ match Process 5 (NewServer false) ["L" +:+ dotted +:+ "STGROUP misc.test"] true with
    | Done true st => group (sess st) = Some Demo.misc
    | _ => False
    end.
Proof. vm_compute. repeat split. Qed.

(* ===================================================================== *)
(** * Further properties of the engine                                   *)
(* ===================================================================== *)

(** ** What every handler preserves *)

Section Frames.

Context {B W : Type} `{!Backend B W} `{!Textproto} `{!Strings.Unicode}.

Variable R : State (B := B) (W := W) → State (B := B) (W := W) → Prop.

Hypothesis R_refl : ∀ st, R st st.
Hypothesis R_trans : ∀ st1 st2 st3, R st1 st2 → R st2 st3 → R st1 st3.
Hypothesis R_sending : ∀ st ws, R st (sending st ws).
Hypothesis R_storing : ∀ st w, R st (storing st w).
Hypothesis R_logging : ∀ st es, R st (logging st es).
Hypothesis R_ReadLine : ∀ st l rest, input (conn st) = l :: rest → R st (leaving st rest).
Hypothesis R_ReadMIMEHeader : ∀ st, R st (leaving st (ReadMIMEHeader (input (conn st))).2).
Hypothesis R_DotReader : ∀ st, R st (leaving st (DotReader (input (conn st))).2).

Lemma preserves_ret {A} (a : A) : preserves R (ret a).
Proof. intros st a' st' [= _ <-]. apply R_refl. Qed.

Lemma preserves_panic {A} : preserves R (panic (A := A)).
Proof. by intros st a' st'. Qed.

Lemma preserves_bind {A C} (m : @M B W A) (k : A → @M B W C) :
  preserves R m → (∀ a, preserves R (k a)) → preserves R (bind m k).
Proof.
  intros Hm Hk st c st'. unfold bind.
  destruct (m st) as [a st1|] eqn:Em; [|done].
  intros Ek. eapply R_trans; [by eapply Hm|by eapply Hk].
Qed.

Lemma preserves_index {A} (l : list A) i : preserves R (index l i).
Proof. unfold index. destruct (l !! i); [apply preserves_ret|apply preserves_panic]. Qed.

Lemma preserves_getGroup : preserves R getGroup.
Proof. intros st a st' [= _ <-]. apply R_refl. Qed.

Lemma preserves_send w : preserves R (send w).
Proof. intros st a st' [= _ <-]. apply R_sending. Qed.

Lemma preserves_ReadLine : preserves R ReadLine.
Proof.
  intros st a st'. unfold ReadLine.
  destruct (input (conn st)) as [|l rest] eqn:Hin; intros [= _ <-];
    [apply R_refl|by eapply R_ReadLine].
Qed.

Lemma preserves_ReadMIMEHeader : preserves R (reading ReadMIMEHeader).
Proof.
  intros st a st'. unfold reading. pose proof (R_ReadMIMEHeader st) as HR.
  destruct (ReadMIMEHeader _) as [a' rest]. by intros [= _ <-].
Qed.

Lemma preserves_DotReader : preserves R (reading DotReader).
Proof.
  intros st a st'. unfold reading. pose proof (R_DotReader st) as HR.
  destruct (DotReader _) as [a' rest]. by intros [= _ <-].
Qed.

Lemma preserves_logf e : preserves R (logf e).
Proof. intros st a st' [= _ <-]. apply R_logging. Qed.

Lemma preserves_call {A} (f : B → W → A * W) : preserves R (call f).
Proof.
  intros st a st'. unfold call.
  destruct (f _ _) as [a' w']. intros [= _ <-]. apply R_storing.
Qed.

(** Follows the shape of a handler: binds, branches, then the
    primitives above. *)
Ltac frame :=
  repeat first
    [ apply preserves_bind; [|intros ?]
    | progress (unfold PrintfLine, writeDot, headerChunks)
    | apply preserves_ret | apply preserves_panic | apply preserves_index
    | apply preserves_getGroup | apply preserves_send | apply preserves_ReadLine
    | apply preserves_ReadMIMEHeader | apply preserves_DotReader
    | apply preserves_logf | apply preserves_call
    | solve [auto]
    | match goal with
      | |- preserves _ (match ?x with _ => _ end) => destruct x
      | |- preserves _ (if ?x then _ else _) => destruct x
      | |- preserves _ (let '(_, _) := ?x in _) => destruct x
      end ].

Lemma preserves_getArticle args : preserves R (getArticle args).
Proof. unfold getArticle. frame. Qed.

Lemma preserves_listGroupArticles g from to : preserves R (listGroupArticles g from to).
Proof. unfold listGroupArticles. frame. Qed.

(** The thirteen handlers that assign neither [s.group] nor
    [s.backend]. *)
Lemma preserves_plain_handlers args :
  preserves R (handleDefault args) ∧ preserves R (handleQuit args)
  ∧ preserves R (handleList args) ∧ preserves R (handleHead args)
  ∧ preserves R (handleBody args) ∧ preserves R (handleArticle args)
  ∧ preserves R (handlePost args) ∧ preserves R (handleIHave args)
  ∧ preserves R (handleCap args) ∧ preserves R (handleMode args)
  ∧ preserves R (handleNewGroups args) ∧ preserves R (handleOver args).
Proof.
  pose proof (preserves_getArticle args).
  unfold handleDefault, handleQuit, handleList, handleListOverviewFmt,
    handleHead, handleBody, handleArticle, handlePost, handleIHave, handleCap,
    handleMode, handleNewGroups, handleOver.
  repeat split; frame.
Qed.

(** [GROUP] and [LISTGROUP], for a relation that a new selection keeps. *)
Lemma preserves_group_handlers args :
  (∀ st g, R st (selecting st g)) →
  preserves R (handleGroup args) ∧ preserves R (handleListGroup args).
Proof.
  intros R_selecting.
  assert (∀ g, preserves R (setGroup g)) as Hset.
  { intros g st a st' [= _ <-]. apply R_selecting. }
  pose proof preserves_listGroupArticles.
  unfold handleGroup, handleListGroup. split; frame.
Qed.

(** [AUTHINFO], for a relation that a new back end keeps. *)
Lemma preserves_handleAuthInfo args :
  (∀ st b, R st (swapping st b)) → preserves R (handleAuthInfo args).
Proof.
  intros R_swapping.
  assert (∀ b, preserves R (setBackend b)) as Hset.
  { intros b st a st' [= _ <-]. apply R_swapping. }
  unfold handleAuthInfo. frame.
Qed.

(** The whole table, one turn of the loop and the loop itself, for a
    relation that every assignment keeps. *)
Lemma preserves_dispatchCommand (b0 : B) cmd args :
  (∀ st g, R st (selecting st g)) → (∀ st b, R st (swapping st b)) →
  preserves R (dispatchCommand (NewServer b0) cmd args).
Proof.
  intros R_selecting R_swapping. unfold dispatchCommand.
  destruct (preserves_plain_handlers args)
    as (? & ? & ? & ? & ? & ? & ? & ? & ? & ? & ? & ?).
  destruct (preserves_group_handlers args R_selecting) as [? ?].
  pose proof (preserves_handleAuthInfo args R_swapping).
  destruct (lookupHandler _ (Strings.ToLower cmd)) as [h|] eqn:Hk.
  - destruct (NewServer_handlers _ _ _ Hk)
      as [[_ ->]|[[_ ->]|[[_ ->]|[[_ ->]|[[_ ->]|[[_ ->]|[[_ ->]|[[_ ->]|[[_ ->]
         |[[_ ->]|[[_ ->]|[[_ ->]|[[_ ->]|[[_ ->]|[[_ ->]|[_ ->]]]]]]]]]]]]]]]];
      done.
  - by rewrite NewServer_default.
Qed.

Lemma preserves_serve (b0 : B) l :
  (∀ st g, R st (selecting st g)) → (∀ st b, R st (swapping st b)) →
  preserves R (serve (NewServer b0) l).
Proof.
  intros R_selecting R_swapping.
  pose proof (fun c args => preserves_dispatchCommand b0 c args R_selecting R_swapping) as Hd.
  unfold serve. frame.
Qed.

Lemma preserves_serveLoop (b0 : B) fuel :
  (∀ st g, R st (selecting st g)) → (∀ st b, R st (swapping st b)) →
  preserves R (serveLoop fuel (NewServer b0)).
Proof.
  intros R_selecting R_swapping.
  pose proof (fun l => preserves_serve b0 l R_selecting R_swapping) as Hs.
  induction fuel as [|fuel IH]; intros st c st'; simpl.
  { intros [= _ <-]. apply R_refl. }
  unfold bind, ReadLine, logf.
  destruct (input (conn st)) as [|l rest] eqn:Hin; simpl.
  { intros [= _ <-]. apply R_logging. }
  destruct (serve _ _ _) as [[] st1|] eqn:Hserve; [| |done].
  - intros Hloop. eapply R_trans; [by eapply R_ReadLine|].
    eapply R_trans; [by eapply Hs|by eapply IH].
  - intros [= _ <-]. eapply R_trans; [by eapply R_ReadLine|by eapply Hs].
Qed.

End Frames.

(** ** Sessions as a whole *)

Section Sessions.

Context {B W : Type} `{!Backend B W} `{!Textproto} `{!Strings.Unicode}.
Implicit Types (st : State (B := B) (W := W)) (args : list string).


(** X1.  Nothing a session has sent is ever taken back or altered: for
    every command of the table, and for every run of the loop, what had
    been sent before is the beginning of what has been sent after.  So
    every session that [Process] sees through starts with the greeting
    [200 Hello!]. *)
Theorem Process_sends_greeting_first (b0 : B) :
  (∀ cmd args st r st',
     dispatchCommand (NewServer b0) cmd args st = Done r st' →
     output (conn st) `prefix_of` output (conn st'))
  ∧ (∀ fuel st c st',
     serveLoop fuel (NewServer b0) st = Done c st' →
     output (conn st) `prefix_of` output (conn st'))
  ∧ (∀ fuel lines w c st',
     Process fuel (NewServer b0) lines w = Done c st' →
     ∃ more, output (conn st') = Line "200 Hello!" :: more).
Proof.
  assert (Hloop : ∀ fuel, preserves sentBefore (serveLoop fuel (NewServer b0))).
  { intros fuel. apply preserves_serveLoop; unfold sentBefore; simpl; intros;
      try done; try by apply prefix_app_r.
    by etrans. }
  split; [|split].
  - intros cmd args st r st' Hrun.
    eapply (preserves_dispatchCommand sentBefore); [..|exact Hrun];
      unfold sentBefore; simpl; intros; try done; try by apply prefix_app_r.
    by etrans.
  - intros fuel st c st' Hrun. by eapply Hloop.
  - intros fuel lines w c st' Hrun. unfold Process, bind, PrintfLine, send in Hrun.
    apply Hloop in Hrun. unfold sentBefore in Hrun. simpl in Hrun.
    destruct Hrun as [more ->]. by exists more.
Qed.


(** The handler a command other than [AUTHINFO] runs. *)
Lemma dispatch_keeps_backend (b0 : B) cmd args :
  Strings.ToLower cmd ≠ "authinfo" →
  preserves sameBackend (dispatchCommand (NewServer b0) cmd args).
Proof.
  intros Hcmd.
  destruct (preserves_plain_handlers sameBackend) with (args := args)
    as (? & ? & ? & ? & ? & ? & ? & ? & ? & ? & ? & ?);
    try (unfold sameBackend; simpl; intros; first [done | by etrans]).
  destruct (preserves_group_handlers sameBackend) with (args := args) as [? ?];
    try (unfold sameBackend; simpl; intros; first [done | by etrans]).
  unfold dispatchCommand.
  destruct (lookupHandler _ (Strings.ToLower cmd)) as [h|] eqn:Hk.
  - destruct (NewServer_handlers _ _ _ Hk)
      as [[_ ->]|[[_ ->]|[[_ ->]|[[_ ->]|[[_ ->]|[[_ ->]|[[_ ->]|[[_ ->]|[[_ ->]
         |[[_ ->]|[[_ ->]|[[_ ->]|[[? ->]|[[_ ->]|[[_ ->]|[_ ->]]]]]]]]]]]]]]]];
      done.
  - by rewrite NewServer_default.
Qed.

(** X3.  The session's back end is replaced by nothing but a successful
    [AUTHINFO]: every other command leaves it, and [AUTHINFO] changes it
    only when it returns no error and [Authenticate], called on the old
    back end, has returned the new one. *)
Theorem backend_swapped_by_AUTHINFO_only (b0 : B) cmd args st r st' :
  dispatchCommand (NewServer b0) cmd args st = Done r st' →
  backend (sess st') = backend (sess st)
  ∨ (Strings.ToLower cmd = "authinfo" ∧ r = None
     ∧ ∃ user pass w w2,
         Authenticate (backend (sess st)) user pass w = (Ok (Some (backend (sess st'))), w2)).
Proof.
  intros Hrun.
  destruct (decide (Strings.ToLower cmd = "authinfo")) as [Hcmd|Hcmd];
    [|by left; eapply dispatch_keeps_backend].
  revert Hrun. unfold dispatchCommand.
  destruct (lookupHandler _ (Strings.ToLower cmd)) as [h|] eqn:Hk.
  2:{ rewrite NewServer_default. intros [= _ <-]. by left. }
  rewrite Hcmd in Hk.
  assert (h = handleAuthInfo) as ->.
  { destruct (NewServer_handlers _ _ _ Hk) as [[? _]|Hrest]; [done|].
    repeat (destruct Hrest as [[? Hh]|Hrest]; [done || exact Hh|]).
    by destruct Hrest. }
  unfold handleAuthInfo, bind, index, call, ReadLine.
  destruct (decide (length args < 2)%nat); [by intros [= _ <-]; left|].
  destruct (args !! 0%nat) as [a0|]; [cbn -[Strings.SplitN]|done].
  destruct (decide (Strings.ToLower a0 ≠ "user")); [by intros [= _ <-]; left|].
  destruct (Authorized _ _) as [[] w1]; cbn -[Strings.SplitN];
    [by intros [= _ <-]; left|].
  destruct (input (conn st)) as [|l rest]; cbn -[Strings.SplitN].
  - simpl. by intros [= _ <-]; left.
  - destruct (Strings.SplitN l " " 3 !! 0%nat) as [p0|]; [|done].
    cbn -[Strings.SplitN].
    destruct (decide (Strings.ToLower p0 ≠ "authinfo"));
      [by intros [= _ <-]; left|].
    destruct (Strings.SplitN l " " 3 !! 1%nat) as [p1|]; [|done].
    cbn -[Strings.SplitN].
    destruct (bool_decide (Strings.ToLower p1 ≠ "pass"));
      [by intros [= _ <-]; left|].
    destruct (args !! 1%nat) as [user|]; [|done]. cbn -[Strings.SplitN].
    destruct (Strings.SplitN l " " 3 !! 2%nat) as [pass|]; [|done].
    cbn -[Strings.SplitN].
    destruct (Authenticate _ _ _ _) as [[[b'|]|e] w2] eqn:HA; simpl;
      intros [= <- <-]; [right|by left..].
    split; [done|]. split; [done|]. by exists user, pass, w1, w2.
Qed.

End Sessions.

(** ** The handlers one by one *)


Section Handlers.

Context {B W : Type} `{!Backend B W} `{!Textproto} `{!Strings.Unicode}.
Implicit Types (st : State (B := B) (W := W)) (args : list string).

(** X4.  [OVER] looks at the selection before it looks at its
    arguments: without a selected group it answers 412 and touches
    nothing, even when it is given no range.  With a group selected it asks
    the back end for the articles of that group in the parsed range; an
    error of the back end is returned with nothing sent; otherwise the
    handler sends [224 here it comes] and a block with one row per
    article, in the order the back end gave them: number, the first
    values of [Subject], [From], [Date], [Message-Id] and [References]
    (empty when absent), bytes and lines, separated by tabs. *)
Theorem handleOver_replies st :
  (group (sess st) = None →
   ∀ args, handleOver args st = Done (Some (NNTP ErrNoGroupSelected)) st)
  ∧ (∀ g range more from to,
       group (sess st) = Some g → parseRange range = (from, to) →
       handleOver (range :: more) st
       = match GetArticles (backend (sess st)) (Some g) from to (world st) with
         | (Err e, w') => Done (Some e) (storing st w')
         | (Ok articles, w') =>
             Done None
               (sending (storing st w')
                  [Line "224 here it comes";
                   DotBlock
                     (String.concat ""
                        (map (fun a =>
                                let h := Nntp.Header (Article a) in
                                Strconv.FormatInt (Num a) +:+ TAB
                                +:+ Nntp.Get h "Subject" +:+ TAB
                                +:+ Nntp.Get h "From" +:+ TAB
                                +:+ Nntp.Get h "Date" +:+ TAB
                                +:+ Nntp.Get h "Message-Id" +:+ TAB
                                +:+ Nntp.Get h "References" +:+ TAB
                                +:+ Strconv.FormatInt (Nntp.Bytes (Article a)) +:+ TAB
                                +:+ Strconv.FormatInt (Nntp.Lines (Article a)) +:+ LF)
                             articles))])
         end).
Proof.
  split.
  - intros Hg args. unfold handleOver, bind, getGroup; simpl. by rewrite Hg.
  - intros g range more from to Hg Hr.
    unfold handleOver, bind, getGroup, index, call; simpl. rewrite Hg, Hr. simpl.
    destruct (GetArticles _ _ _ _ _) as [[articles|e] w']; [|done].
    unfold PrintfLine, writeDot, send, ret, sending; simpl.
    by rewrite <- ?app_assoc.
Qed.

(** X5.  [LIST] without a type is [LIST ACTIVE], and the type is read
    without regard to case.  For [active] the block has one row
    [name high low flag] per group and for [newsgroups] one row
    [name description], in the order of the back end; an error of
    [ListGroups] is returned with nothing sent.  [LIST OVERVIEW.FMT] never
    calls the back end and always sends the same seven fields. *)
Theorem handleList_rows st :
  (∀ t more, Strings.ToLower t = "active" →
     handleList (t :: more) st = handleList [] st)
  ∧ handleList [] st
    = match ListGroups (backend (sess st)) (-1) (world st) with
      | (Err e, w') => Done (Some e) (storing st w')
      | (Ok groups, w') =>
          Done None
            (sending (storing st w')
               [Line "215 list of newsgroups follows";
                DotBlock
                  (String.concat ""
                     (map (fun g =>
                             Nntp.Name g +:+ " " +:+ Strconv.FormatInt (Nntp.High g)
                             +:+ " " +:+ Strconv.FormatInt (Nntp.Low g) +:+ " "
                             +:+ Nntp.showPosting (Nntp.Posting g) +:+ CRLF)
                          groups))])
      end
  ∧ (∀ t more, Strings.ToLower t = "newsgroups" →
     handleList (t :: more) st
     = match ListGroups (backend (sess st)) (-1) (world st) with
       | (Err e, w') => Done (Some e) (storing st w')
       | (Ok groups, w') =>
           Done None
             (sending (storing st w')
                [Line "215 list of newsgroups follows";
                 DotBlock
                   (String.concat ""
                      (map (fun g => Nntp.Name g +:+ " " +:+ Nntp.Description g +:+ CRLF)
                           groups))])
       end)
  ∧ (∀ t more, Strings.ToLower t = "overview.fmt" →
     handleList (t :: more) st
     = Done None
         (sending st
            [Line "215 Order of fields in overview database.";
             DotBlock ("Subject:" +:+ LF +:+ "From:" +:+ LF +:+ "Date:" +:+ LF
                       +:+ "Message-ID:" +:+ LF +:+ "References:" +:+ LF
                       +:+ ":bytes" +:+ LF +:+ ":lines" +:+ LF)])).
Proof.
  assert (Hrun : ∀ ltype, ltype ≠ "overview.fmt" →
    ∀ args, (match args with a0 :: _ => Strings.ToLower a0 | [] => "active" end) = ltype →
    handleList args st
    = match ListGroups (backend (sess st)) (-1) (world st) with
      | (Err e, w') => Done (Some e) (storing st w')
      | (Ok groups, w') =>
          Done None
            (sending (storing st w')
               [Line "215 list of newsgroups follows";
                DotBlock (String.concat "" (map (listRow ltype) groups))])
      end).
  { intros ltype Hno args Hargs. unfold handleList. rewrite Hargs.
    rewrite decide_False by done. unfold bind, call.
    destruct (ListGroups _ _ _) as [[groups|e] w']; [|done].
    unfold PrintfLine, writeDot, send, ret, sending; simpl.
    by rewrite <- ?app_assoc. }
  split; [|split; [|split]].
  - intros t more Ht. by rewrite (Hrun "active"), (Hrun "active" ltac:(done) []).
  - by rewrite (Hrun "active").
  - intros t more Ht. by rewrite (Hrun "newsgroups").
  - intros t more Ht. unfold handleList. rewrite Ht. simpl.
    unfold handleListOverviewFmt, bind, PrintfLine, writeDot, send, ret, sending; simpl.
    by rewrite <- ?app_assoc.
Qed.

(** X6.  [CAPABILITIES] and [MODE] tell the client whether it may post,
    each from its own call of [AllowPost]: the capability block holds the
    lines [POST] and [IHAVE] exactly when the call says yes, and [MODE]
    answers [200 Posting allowed] then and [201 Posting prohibited]
    otherwise.  Both ignore their arguments, return no error and leave the
    session as it was. *)
Theorem posting_is_advertised st args :
  handleCap args st
  = (let '(allowed, w') := AllowPost (backend (sess st)) (world st) in
     Done None
       (sending (storing (sending st [Line "101 Capability list:"]) w')
          [DotBlock ("VERSION 2" +:+ LF +:+ "READER" +:+ LF
                     +:+ (if allowed then "POST" +:+ LF +:+ "IHAVE" +:+ LF else "")
                     +:+ "OVER" +:+ LF +:+ "XOVER" +:+ LF
                     +:+ "LIST ACTIVE NEWSGROUPS OVERVIEW.FMT" +:+ LF)]))
  ∧ handleMode args st
    = (let '(allowed, w') := AllowPost (backend (sess st)) (world st) in
       Done None
         (sending (storing st w')
            [Line (if allowed then "200 Posting allowed" else "201 Posting prohibited")]))
  ∧ (∀ r st', handleCap args st = Done r st' ∨ handleMode args st = Done r st' →
              r = None ∧ sess st' = sess st).
Proof.
  unfold handleCap, handleMode, bind, call, PrintfLine, writeDot, send, ret; simpl.
  destruct (AllowPost _ _) as [allowed w']; simpl.
  split; [done|]. split; [done|].
  intros r st' [Hrun|Hrun]; by injection Hrun as <- <-.
Qed.

(** X7.  [POST].  When the back end does not allow posting the answer
    is 440 and nothing is sent or read.  Otherwise [340 Go ahead] is
    sent and the header is read; when that fails the answer is 441 and the
    body is not read: whatever the client sent after the header is still
    there to be read as commands.  Else the body is read up to its lone dot
    and the article, with byte and line counts zero, is handed to [Post];
    its error is returned as it is, and without one [240 article received
    OK] is sent. *)
Theorem handlePost_replies st args :
  handlePost args st
  = match AllowPost (backend (sess st)) (world st) with
    | (false, w1) => Done (Some (NNTP ErrPostingNotPermitted)) (storing st w1)
    | (true, w1) =>
        let asked := sending (storing st w1) [Line "340 Go ahead"] in
        match ReadMIMEHeader (input (conn st)) with
        | (Err _, rest) => Done (Some (NNTP ErrPostingFailed)) (leaving asked rest)
        | (Ok header, rest) =>
            let '(body, rest') := DotReader rest in
            let article := {| Nntp.Header := header; Nntp.Body := body;
                              Nntp.Bytes := 0; Nntp.Lines := 0 |} in
            match Post (backend (sess st)) article w1 with
            | (Some e, w2) => Done (Some e) (storing (leaving asked rest') w2)
            | (None, w2) =>
                Done None (sending (storing (leaving asked rest') w2)
                             [Line "240 article received OK"])
            end
        end
    end.
Proof.
  unfold handlePost, bind, call, reading, PrintfLine, send, ret; simpl.
  destruct (AllowPost _ _) as [[] w1]; simpl; [|done].
  destruct (ReadMIMEHeader _) as [[header|e] rest]; simpl; [|done].
  destruct (DotReader rest) as [body rest']; simpl.
  by destruct (Post _ _ _) as [[e|] w2].
Qed.

(** X8.  [IHAVE].  When the back end does not allow posting, or when
    it has an article under the offered message-id, the answer is 435 and
    nothing is sent, read or posted.  Any answer of [GetArticle] that is
    an error, whichever it is, counts as not having the article: [335
    send it] is sent, and from there on the exchange is that of [POST],
    ending in [235 article received OK]. *)
Theorem handleIHave_replies st id more :
  handleIHave (id :: more) st
  = match AllowPost (backend (sess st)) (world st) with
    | (false, w1) => Done (Some (NNTP ErrNotWanted)) (storing st w1)
    | (true, w1) =>
        match GetArticle (backend (sess st)) None id w1 with
        | (Ok _, w2) => Done (Some (NNTP ErrNotWanted)) (storing st w2)
        | (Err _, w2) =>
            let asked := sending (storing st w2) [Line "335 send it"] in
            match ReadMIMEHeader (input (conn st)) with
            | (Err _, rest) => Done (Some (NNTP ErrPostingFailed)) (leaving asked rest)
            | (Ok header, rest) =>
                let '(body, rest') := DotReader rest in
                let article := {| Nntp.Header := header; Nntp.Body := body;
                                  Nntp.Bytes := 0; Nntp.Lines := 0 |} in
                match Post (backend (sess st)) article w2 with
                | (Some e, w3) => Done (Some e) (storing (leaving asked rest') w3)
                | (None, w3) =>
                    Done None (sending (storing (leaving asked rest') w3)
                                 [Line "235 article received OK"])
                end
            end
        end
    end.
Proof.
  unfold handleIHave, bind, call, index, reading, PrintfLine, send, ret; simpl.
  destruct (AllowPost _ _) as [[] w1]; simpl; [|done].
  destruct (GetArticle _ _ _ _) as [[a|e] w2]; simpl; [done|].
  destruct (ReadMIMEHeader _) as [[header|e'] rest]; simpl; [|done].
  destruct (DotReader rest) as [body rest']; simpl.
  by destruct (Post _ _ _) as [[e''|] w3].
Qed.


(** X10.  [LISTGROUP] with a range that holds no dash is always refused:
    the range parser reads a lone number as an upper bound, with lower
    bound 0, and the handler takes a lower bound of 0 for a syntax error.
    So [LISTGROUP group 5] answers 501, before any call of the back end. *)
Theorem handleListGroup_refuses_single_number st name range more :
  Strings.contains range "-" = false →
  handleListGroup (name :: range :: more) st = Done (Some (NNTP ErrSyntax)) st.
Proof.
  intros Hd.
  assert (Hfrom : (parseRange range).1 = 0).
  { destruct (decide (range = "")) as [->|Hne]; [done|].
    by rewrite parseRange_one_field. }
  unfold handleListGroup, bind, getGroup; simpl.
  destruct (parseRange range) as [from to]. simpl in Hfrom. subst from.
  by destruct (decide _).
Qed.


(** X12.  [AUTHINFO] checks its arguments before anything else: with
    fewer than two, or with a first argument that is not [USER] in some
    case ([AUTHINFO PASS] sent first, say), it answers 501 without
    calling the back end, sending or reading anything. *)
Theorem handleAuthInfo_validates st :
  handleAuthInfo [] st = Done (Some (NNTP ErrSyntax)) st
  ∧ (∀ a, handleAuthInfo [a] st = Done (Some (NNTP ErrSyntax)) st)
  ∧ (∀ op user more, Strings.ToLower op ≠ "user" →
       handleAuthInfo (op :: user :: more) st = Done (Some (NNTP ErrSyntax)) st).
Proof.
  split; [done|]. split; [done|].
  intros op user more Hop. unfold handleAuthInfo, bind, index.
  destruct (decide (length (op :: user :: more) < 2)%nat) as [Hlen|_];
    [simpl in Hlen; lia|].
  change ((op :: user :: more) !! 0%nat) with (Some op). unfold ret at 1.
  by destruct (decide (Strings.ToLower op ≠ "user")).
Qed.

(** X13.  The table of [NewServer].  The command is looked up by its
    lower-case form: each of the fifteen names runs its handler, [XOVER]
    running that of [OVER]; any other form, the empty one included (an
    empty line, or a line that starts with a space), runs the default
    handler; so the dispatcher never panics for want of a default
    handler. *)
Theorem NewServer_dispatch (b0 : B) cmd args :
  dispatchCommand (NewServer b0) cmd args
  = (let name := Strings.ToLower cmd in
     if decide (name = "quit") then handleQuit args
     else if decide (name = "group") then handleGroup args
     else if decide (name = "listgroup") then handleListGroup args
     else if decide (name = "list") then handleList args
     else if decide (name = "head") then handleHead args
     else if decide (name = "body") then handleBody args
     else if decide (name = "article") then handleArticle args
     else if decide (name = "post") then handlePost args
     else if decide (name = "ihave") then handleIHave args
     else if decide (name = "capabilities") then handleCap args
     else if decide (name = "mode") then handleMode args
     else if decide (name = "authinfo") then handleAuthInfo args
     else if decide (name = "newgroups") then handleNewGroups args
     else if decide (name = "over") then handleOver args
     else if decide (name = "xover") then handleOver args
     else handleDefault args).
Proof.
  unfold dispatchCommand. generalize (Strings.ToLower cmd). intros name. simpl.
  destruct (lookupHandler (NewServer b0) name) as [h|] eqn:Hk.
  - destruct (NewServer_handlers _ _ _ Hk)
      as [[-> ->]|[[-> ->]|[[-> ->]|[[-> ->]|[[-> ->]|[[-> ->]|[[-> ->]|[[-> ->]
         |[[-> ->]|[[-> ->]|[[-> ->]|[[-> ->]|[[-> ->]|[[-> ->]|[[-> ->]|[-> ->]
         ]]]]]]]]]]]]]]]; reflexivity.
  - rewrite NewServer_default.
    unfold lookupHandler, NewServer in Hk; simpl in Hk.
    repeat (apply lookup_insert_None in Hk as [Hk ?]).
    repeat (destruct (decide _) as [->|_]; [congruence|]). done.
Qed.

End Handlers.

(** ** The range parser and the header formatter, on every input *)

Lemma Split_fields_clean s sep : ∀ f, f ∈ Strings.Split s sep → Strings.contains f sep = false.
Proof.
  induction s as [|c r IH]; intros f; simpl.
  { intros ->%list_elem_of_singleton. done. }
  destruct (Ascii.eqb c sep) eqn:Hc.
  - intros [->|Hin]%elem_of_cons; [done|by apply IH].
  - destruct (Strings.Split r sep) as [|f0 fs].
    + intros ->%list_elem_of_singleton. simpl. by rewrite Hc.
    + intros [->|Hin]%elem_of_cons.
      * simpl. rewrite Hc. simpl. apply IH. by left.
      * apply IH. by right.
Qed.

Lemma parseUintLoop_nonneg s : ∀ n, 0 <= n → 0 <= (Strconv.parseUintLoop s n).1.
Proof.
  induction s as [|c r IH]; intros n Hn; simpl; [done|].
  destruct (Strconv.digit c) as [d|]; [|done].
  destruct (n >=? _); [done|].
  destruct (_ || _); [done|]. apply IH. by apply Z.mod_pos_bound.
Qed.

(** [ParseInt] never returns a value outside 64 bits, and none below 0
    for a text without a minus sign. *)
Lemma ParseInt_bounds s :
  - 2 ^ 63 <= (Strconv.ParseInt s).1 <= Strconv.MaxInt64
  ∧ (Strings.contains s "-" = false → 0 <= (Strconv.ParseInt s).1).
Proof.
  unfold Strconv.ParseInt, Strconv.MaxInt64. destruct s as [|c r]; [simpl; lia|].
  assert (Hu : ∀ body, 0 <= (Strconv.ParseUint body).1).
  { intros body. unfold Strconv.ParseUint. destruct body; [done|].
    by apply parseUintLoop_nonneg. }
  cbn [Strings.contains].
  destruct (Ascii.eqb c "+"); [|destruct (Ascii.eqb c "-")];
    match goal with
    | |- context [Strconv.ParseUint ?body] =>
        specialize (Hu body); destruct (Strconv.ParseUint body) as [un [[]|]]
    end;
    cbn [negb andb orb fst] in *; rewrite ?Z.geb_leb, ?Z.gtb_ltb;
    repeat match goal with
           | |- context [Z.leb ?a ?b] => destruct (Z.leb_spec a b)
           | |- context [Z.ltb ?a ?b] => destruct (Z.ltb_spec a b)
           end;
    cbn [fst]; split; try lia; try discriminate; intros _; lia.
Qed.

(** X14.  Whatever the text, [parseRange] returns two numbers between 0
    and [MaxInt64]: the fields it parses lie between dashes, so none of
    them has a sign to make it negative, and [ParseInt] clamps what is too
    large.  (The lower bound need not be below the upper one.) *)
Theorem parseRange_bounds (spec : string) :
  0 <= (parseRange spec).1 <= Strconv.MaxInt64
  ∧ 0 <= (parseRange spec).2 <= Strconv.MaxInt64.
Proof.
  unfold parseRange.
  destruct (decide (spec = "")); [by unfold Strconv.MaxInt64|].
  pose proof (Split_fields_clean spec "-") as Hclean.
  destruct (Strings.Split spec "-") as [|p0 [|p1 rest]]; [by unfold Strconv.MaxInt64| |].
  - destruct (ParseInt_bounds p0) as [Hr Hp]. specialize (Hp (Hclean p0 ltac:(by left))).
    destruct (Strconv.ParseInt p0) as [h [e|]]; simpl in *;
      unfold Strconv.MaxInt64 in *; lia.
  - destruct (ParseInt_bounds p0) as [Hr0 Hp0].
    specialize (Hp0 (Hclean p0 ltac:(by left))).
    destruct (ParseInt_bounds p1) as [Hr1 Hp1].
    specialize (Hp1 (Hclean p1 ltac:(by right; left))).
    destruct (Strconv.ParseInt p0) as [l e0].
    destruct (Strconv.ParseInt p1) as [h [e|]]; simpl in *;
      unfold Strconv.MaxInt64 in *; lia.
Qed.

Lemma order_NoDup : NoDup order.
Proof. by apply (bool_decide_unpack _). Qed.

(** The names [sendHeaders] writes are the keys of the map, each once. *)
Lemma sendHeaders_names (header : gmap string (list string)) :
  filter (fun k => is_Some (header !! k)) order
  ++ merge_sort string_le (filter (fun k => k ∉ order) (map_to_list header).*1)
  ≡ₚ (map_to_list header).*1.
Proof.
  rewrite merge_sort_Permutation.
  etrans; [|apply (filter_app_complement (fun k => k ∈ order))].
  apply Permutation_app; [|done].
  apply NoDup_Permutation.
  - apply NoDup_filter, order_NoDup.
  - apply NoDup_filter, NoDup_fst_map_to_list.
  - intros k. rewrite !list_elem_of_filter, header_keys. tauto.
Qed.

Lemma flat_map_ext_Forall {A C} (f g : A → list C) (l : list A) :
  Forall (fun x => f x = g x) l → flat_map f l = flat_map g l.
Proof. induction 1 as [|x l Hx _ IH]; simpl; [done|]. by rewrite Hx, IH. Qed.

(** With a value for every name, [sendHeaders] writes the lines of the
    names in its order. *)
Lemma sendHeaders_succeeds (header : gmap string (list string)) :
  map_Forall (fun _ vs => vs ≠ []) header →
  sendHeaders header
  = Some (flat_map
            (fun k => map (fun v => k +:+ ": " +:+ v +:+ CRLF) (default [] (header !! k)))
            (filter (fun k => is_Some (header !! k)) order
             ++ merge_sort string_le
                  (filter (fun k => k ∉ order) (map_to_list header).*1))).
Proof.
  intros Hall. rewrite sendHeaders_newOrder, writeHeaders_lines.
  - by rewrite flat_map_concat_map, map_map, <- flat_map_concat_map.
  - apply Forall_forall. intros [k v] Hin.
    apply list_elem_of_In, in_map_iff in Hin as (k' & [= <- <-] & Hk').
    apply list_elem_of_In in Hk'. rewrite sendHeaders_names in Hk'.
    apply header_keys in Hk' as [vs Hvs]. rewrite Hvs. simpl. by eapply Hall.
Qed.

Lemma sendHeaders_panics_iff (header : gmap string (list string)) :
  sendHeaders header = None ↔ ∃ k, header !! k = Some [].
Proof.
  split; [|intros [k Hk]; by eapply sendHeaders_panics].
  intros Hnone.
  destruct (decide (map_Forall (fun _ vs => vs ≠ []) header)) as [Hall|Hnot].
  - by rewrite sendHeaders_succeeds in Hnone.
  - apply map_not_Forall in Hnot as (k & vs & Hk & Hvs); [|apply _].
    destruct vs as [|v vs]; [by exists k|by destruct Hvs].
Qed.

(** X15.  [sendHeaders] loses nothing and invents nothing.  It panics
    exactly when some name of the map is bound to an empty list of
    values; otherwise what it writes is, up to the order, one line
    [Name: value] for each value of each name of the map: as many lines
    as there are values, whichever names are preferred. *)
Theorem sendHeaders_complete (header : gmap string (list string)) :
  match sendHeaders header with
  | Some chunks =>
      (∀ k vs, header !! k = Some vs → vs ≠ [])
      ∧ chunks ≡ₚ flat_map (fun kv => map (fun v => kv.1 +:+ ": " +:+ v +:+ CRLF) kv.2)
                    (map_to_list header)
  | None => ∃ k, header !! k = Some []
  end.
Proof.
  destruct (sendHeaders header) as [chunks|] eqn:Hsend;
    [|by apply sendHeaders_panics_iff].
  assert (Hall : map_Forall (fun _ vs => vs ≠ []) header).
  { intros k vs Hk ->. rewrite (sendHeaders_panics _ _ Hk) in Hsend. done. }
  split; [exact Hall|].
  rewrite sendHeaders_succeeds in Hsend by done. injection Hsend as <-.
  rewrite (Permutation_flat_map _ (sendHeaders_names header)).
  rewrite flat_map_concat_map, <- list_fmap_compose, <- flat_map_concat_map.
  apply reflexive_eq, flat_map_ext_Forall, Forall_forall.
  intros [k vs] Hin%elem_of_map_to_list. simpl. by rewrite Hin.
Qed.

(** ** How a session ends *)

Section Closing.

Context {B W : Type} `{!Backend B W} `{!Textproto} `{!Strings.Unicode}.
Implicit Types (st : State (B := B) (W := W)) (args : list string).

Lemma NewServer_quit (b0 : B) : lookupHandler (NewServer b0) "quit" = Some handleQuit.
Proof.
  unfold lookupHandler, NewServer; simpl.
  rewrite !lookup_insert_ne by done. apply lookup_insert_eq.
Qed.

(** X16.  The two quiet ends of a session.  When the client has hung
    up, the loop logs the read error and closes, sending nothing.  When
    the next line is [QUIT], in any case and with any arguments, the loop
    logs the command, sends [205 bye] and closes: no error is logged, the
    back end is not called, and the lines the client sent after [QUIT]
    are left unread. *)
Theorem session_closing (b0 : B) fuel st :
  (input (conn st) = [] →
   serveLoop (S fuel) (NewServer b0) st = Done true (logging st [LogReadError EOF]))
  ∧ (∀ l more c args,
       input (conn st) = l :: more →
       Strings.Split l " " = c :: args →
       Strings.ToLower c = "quit" →
       serveLoop (S fuel) (NewServer b0) st
       = Done true
           (sending (logging (leaving st more) [LogGotCmd (c :: args)])
              [Line "205 bye"])).
Proof.
  split.
  - intros Hin. simpl. unfold bind, ReadLine, logf. by rewrite Hin.
  - intros l more c args Hin Hs Hc. simpl. unfold bind, ReadLine. rewrite Hin.
    rewrite (serve_outcome _ _ _ _ _ Hs). unfold dispatchCommand.
    by rewrite Hc, NewServer_quit.
Qed.

End Closing.

(** ** The example server: the lazy body reader *)

Section Opener.

Context {N : Type} `{!Couch.Http N}.
Implicit Types (l : Couch.lazyOpener) (d : list Byte.byte).

Lemma take_min_length {A} (p : nat) (d : list A) :
  take (p `min` length d) d = take p d ∧ drop (p `min` length d) d = drop p d.
Proof.
  destruct (decide (p ≤ length d)%nat) as [Hle|Hgt].
  - by rewrite Nat.min_l.
  - rewrite Nat.min_r by lia. by rewrite !take_ge, !drop_ge by lia.
Qed.

Lemma take_then_take {A} (d : list A) : ∀ n m,
  take n d ++ take m (drop n d) = take (n + m) d.
Proof.
  induction d as [|x d IH]; intros n m.
  - by rewrite drop_nil, !take_nil.
  - destruct n as [|n]; simpl; [done|]. by rewrite IH.
Qed.

(** [Read] on an opener that holds bytes and no error: no request is
    made; the bytes that fit the buffer are delivered, or [io.EOF] when
    none is left. *)
Lemma Read_opened u d p (net : N) :
  Couch.Read {| Couch.url := u; Couch.data := Some d; Couch.err := None |} p net
  = if decide (d = [])
    then (([], Some EOF),
          {| Couch.url := u; Couch.data := Some d; Couch.err := None |}, net)
    else ((take p d, None),
          {| Couch.url := u; Couch.data := Some (drop p d); Couch.err := None |}, net).
Proof.
  unfold Couch.Read. simpl.
  destruct (decide (length d = 0%nat)) as [Hl|Hl].
  - apply length_zero_iff_nil in Hl. by rewrite decide_True.
  - rewrite decide_False by (by intros ->).
    by destruct (take_min_length p d) as [-> ->].
Qed.

Lemma drain_opened sizes : ∀ u d (net : N),
  Couch.drain sizes {| Couch.url := u; Couch.data := Some d; Couch.err := None |} net
  = (take (sum_list sizes) d,
     {| Couch.url := u; Couch.data := Some (drop (sum_list sizes) d);
        Couch.err := None |}, net).
Proof.
  induction sizes as [|p sizes IH]; intros u d net.
  { simpl. by rewrite take_0. }
  cbn [Couch.drain sum_list foldr]. rewrite Read_opened.
  destruct (decide (d = [])) as [->|Hne].
  - rewrite IH. by rewrite !take_nil, !drop_nil.
  - rewrite IH. by rewrite take_then_take, drop_drop.
Qed.

(** X17.  The body reader never reports a failure.  The error [Read]
    returns is [nil] or [io.EOF], whatever the network does.  Once an
    error is stored, [Read] returns no byte and no error, every time,
    without a new request: so it does when the request itself fails, and
    when reading the response fails, the bytes read before the failure
    being withheld.  A client that reads until an error or the end of the
    stream is never told to stop. *)
Theorem lazyOpener_hides_errors :
  (∀ l p (net : N),
     (Couch.Read l p net).1.1.2 = None ∨ (Couch.Read l p net).1.1.2 = Some EOF)
  ∧ (∀ l p (net : N) e,
       Couch.err l = Some e → Couch.Read l p net = (([], None), l, net))
  ∧ (∀ l p (net net' : N) e,
       Couch.data l = None → Couch.err l = None →
       Couch.Get (Couch.url l) net = (Couch.Refused e, net') →
       Couch.Read l p net
       = (([], None),
          {| Couch.url := Couch.url l; Couch.data := None; Couch.err := Some e |}, net'))
  ∧ (∀ l p (net net' : N) code status body e,
       Couch.data l = None → Couch.err l = None →
       Couch.Get (Couch.url l) net = (Couch.Answered code status body (Some e), net') →
       Couch.Read l p net
       = (([], None),
          {| Couch.url := Couch.url l; Couch.data := body; Couch.err := Some e |}, net')).
Proof.
  split; [|split; [|split]].
  - intros l p net. unfold Couch.Read.
    destruct (if decide _ then _ else _) as [l' net'].
    destruct (decide (Couch.err l' ≠ None)); [by left|].
    destruct (decide (length _ = 0%nat)); simpl; [by right|by left].
  - intros l p net e He. unfold Couch.Read.
    destruct (decide (Couch.data l = None ∧ _)) as [[_ Hn]|_]; [congruence|].
    rewrite decide_True; [done|congruence].
  - intros l p net net' e Hd He HG. unfold Couch.Read, Couch.init.
    rewrite decide_True by done. rewrite HG, Hd. by rewrite decide_True.
  - intros l p net net' code status body e Hd He HG. unfold Couch.Read, Couch.init.
    rewrite decide_True by done. rewrite HG. simpl. by destruct (decide (code ≠ 200)).
Qed.

(** X18.  What a fresh opener delivers when the request and the reading
    of the response succeed.  One request is made, by the first [Read];
    the status of the response is not looked at (the page of a 404 is
    delivered like an article).  Whatever the lengths of the buffers,
    the bytes delivered by a run of calls are, in a row, the beginning of
    the response's body, as long as the buffers together, and the opener
    keeps the rest; once all have been delivered every [Read] returns
    [io.EOF], with no new request. *)
Theorem lazyOpener_delivers l sizes (net net' : N) code status d :
  Couch.data l = None → Couch.err l = None →
  Couch.Get (Couch.url l) net = (Couch.Answered code status (Some d) None, net') →
  sizes ≠ [] →
  let rest := {| Couch.url := Couch.url l; Couch.data := Some (drop (sum_list sizes) d);
                 Couch.err := None |} in
  Couch.drain sizes l net = (take (sum_list sizes) d, rest, net')
  ∧ ((length d ≤ sum_list sizes)%nat →
     ∀ p, Couch.Read rest p net' = (([], Some EOF), rest, net')).
Proof.
  intros Hd He HG Hs rest.
  assert (Hfirst : ∀ p, Couch.Read l p net
                        = Couch.Read {| Couch.url := Couch.url l; Couch.data := Some d;
                                        Couch.err := None |} p net').
  { intros p. unfold Couch.Read at 1, Couch.init.
    rewrite decide_True by done. rewrite HG. simpl.
    unfold Couch.Read. simpl. by destruct (decide (code ≠ 200)). }
  split.
  - destruct sizes as [|p sizes]; [done|]. subst rest.
    rewrite <- drain_opened. cbn [Couch.drain]. by rewrite Hfirst.
  - intros Hlen p. unfold rest. rewrite Read_opened.
    rewrite decide_True; [done|]. by apply drop_ge.
Qed.

End Opener.

(** ** The example server: the mandatory headers *)

Lemma filter_ext_elem_of {A} (P Q : A → Prop) `{!∀ x, Decision (P x)}
    `{!∀ x, Decision (Q x)} (l : list A) :
  (∀ x, x ∈ l → (P x ↔ Q x)) → filter P l = filter Q l.
Proof.
  induction l as [|x l IH]; intros Hl; [done|].
  rewrite !filter_cons. rewrite IH by (intros y Hy; apply Hl; by right).
  destruct (decide (P x)) as [HP|HP], (decide (Q x)) as [HQ|HQ]; try done;
    exfalso; apply (Hl x ltac:(by left)) in HP || apply (Hl x ltac:(by left)) in HQ;
    done.
Qed.

Lemma filter_none {A} (P : A → Prop) `{!∀ x, Decision (P x)} (l : list A) :
  (∀ x, x ∈ l → ¬ P x) → filter P l = [].
Proof.
  induction l as [|x l IH]; intros Hl; [done|].
  rewrite filter_cons_False by (apply Hl; by left).
  apply IH. intros y Hy. apply Hl. by right.
Qed.

(** Once the loop of [addMandatoryHeaders] has panicked it stays so, and
    on a [nil] map its first turn panics. *)
Lemma supply_panicked dflt ks : foldl (Couch.supply dflt) None ks = None.
Proof. by induction ks. Qed.

Lemma supply_nil_map dflt logged k ks :
  foldl (Couch.supply dflt) (Some (logged, None)) (k :: ks) = None.
Proof. simpl. apply supply_panicked. Qed.

(** The loop of [addMandatoryHeaders] on a map: each name of [ks] that
    is no key, or a key without a value, gets its default, and is
    logged. *)
Lemma supply_loop dflt ks : ∀ logged (m : gmap string (list string)),
  ∃ logged' m',
    foldl (Couch.supply dflt) (Some (logged, Some m)) ks = Some (logged', Some m')
    ∧ (∀ k, m' !! k
            = if decide (k ∈ ks ∧ (m !! k = None ∨ m !! k = Some []))
              then Some (default [] (dflt !! k)) else m !! k)
    ∧ (NoDup ks →
       logged' = logged ++ filter (fun k => m !! k = None ∨ m !! k = Some []) ks).
Proof.
  induction ks as [|k0 ks IH]; intros logged m.
  { exists logged, m. split; [done|]. split; [|by rewrite app_nil_r].
    intros k. rewrite decide_False; [done|]. intros [Hin _]. by inversion Hin. }
  cbn [foldl]. unfold Couch.supply at 2.
  destruct (decide (m !! k0 = None ∨ m !! k0 = Some [])) as [Hmiss|Hhas].
  - destruct (IH (logged ++ [k0]) (<[k0 := default [] (dflt !! k0)]> m))
      as (logged' & m' & -> & Hlook & Hlog).
    exists logged', m'. split; [done|]. split.
    + intros k. rewrite Hlook. destruct (decide (k = k0)) as [->|Hne].
      * rewrite lookup_insert_eq.
        rewrite (decide_True (P := k0 ∈ k0 :: ks ∧ _)) by (split; [by left|done]).
        by destruct (decide _).
      * rewrite lookup_insert_ne by done. apply decide_ext.
        rewrite elem_of_cons.
        split; [intros [? ?]; split; [by right|done]|].
        intros [[->|?] ?]; [done|by split].
    + intros [Hk0 Hnd]%NoDup_cons. rewrite (Hlog Hnd), <- app_assoc. f_equal.
      rewrite filter_cons_True by done. simpl. f_equal.
      apply filter_ext_elem_of. intros k Hk.
      rewrite lookup_insert_ne; [done|]. by intros ->.
  - destruct (IH logged m) as (logged' & m' & -> & Hlook & Hlog).
    exists logged', m'. split; [done|]. split.
    + intros k. rewrite Hlook. apply decide_ext. rewrite elem_of_cons.
      split; [intros [? ?]; split; [by right|done]|].
      intros [[->|?] ?]; [done|by split].
    + intros [Hk0 Hnd]%NoDup_cons. rewrite (Hlog Hnd).
      by rewrite filter_cons_False.
Qed.

Lemma defaults_keys (ar : Couch.article) k :
  is_Some (Couch.defaults ar !! k)
  ↔ k ∈ ["Date"; "From"; "Message-Id"; "Newsgroups"; "Path"; "Subject"].
Proof.
  rewrite !elem_of_cons, elem_of_nil. split.
  - intros [v Hv]. unfold Couch.defaults in Hv.
    repeat (apply lookup_insert_Some in Hv as [[<- _]|[_ Hv]]; [tauto|]).
    by rewrite lookup_empty in Hv.
  - intros Hk. repeat (destruct Hk as [->|Hk]; [by eexists|]). done.
Qed.

Lemma defaults_values (ar : Couch.article) k :
  k ∈ ["Date"; "From"; "Message-Id"; "Newsgroups"; "Path"; "Subject"] →
  ∃ v, Couch.defaults ar !! k = Some [v].
Proof.
  rewrite !elem_of_cons, elem_of_nil. unfold Couch.defaults.
  intros H. repeat (destruct H as [->|H]; [by eexists|]). done.
Qed.

Lemma defaults_range (ar : Couch.article) :
  (map_to_list (Couch.defaults ar)).*1
  ≡ₚ ["Date"; "From"; "Message-Id"; "Newsgroups"; "Path"; "Subject"].
Proof.
  apply NoDup_Permutation.
  - apply NoDup_fst_map_to_list.
  - by apply (bool_decide_unpack _).
  - intros k. by rewrite header_keys, defaults_keys.
Qed.

(** [addMandatoryHeaders] on an article whose headers are a map, the
    defaults being ranged over in any order: the map afterwards, name by
    name, and the names logged. *)
Lemma addMandatoryHeadersIn_map (ar : Couch.article) m ks :
  Couch.Headers ar = Some m →
  ks ≡ₚ ["Date"; "From"; "Message-Id"; "Newsgroups"; "Path"; "Subject"] →
  ∃ m',
    Couch.addMandatoryHeadersIn ks ar
    = Some (filter (fun k => m !! k = None ∨ m !! k = Some []) ks,
            {| Couch.MsgID := Couch.MsgID ar; Couch.Headers := Some m';
               Couch.Bytes := Couch.Bytes ar; Couch.Lines := Couch.Lines ar;
               Couch.Added := Couch.Added ar |})
    ∧ ∀ k, m' !! k
           = if decide (k ∈ ["Date"; "From"; "Message-Id"; "Newsgroups"; "Path"; "Subject"]
                        ∧ (m !! k = None ∨ m !! k = Some []))
             then Couch.defaults ar !! k else m !! k.
Proof.
  intros Hm Hks.
  assert (Hnd : NoDup ks).
  { rewrite Hks. by apply (bool_decide_unpack _). }
  destruct (supply_loop (Couch.defaults ar) ks [] m) as (logged & m' & Hrun & Hlook & Hlog).
  exists m'. split.
  - unfold Couch.addMandatoryHeadersIn. rewrite Hm, Hrun. by rewrite (Hlog Hnd).
  - intros k. rewrite Hlook.
    destruct (decide (k ∈ ks ∧ _)) as [[Hin Hmiss]|Hno].
    + rewrite Hks in Hin. rewrite decide_True by done.
      destruct (defaults_values ar k Hin) as [v ->]. done.
    + rewrite decide_False; [done|]. intros [Hin Hmiss]. apply Hno.
      split; [by rewrite Hks|done].
Qed.

(** X19.  [addMandatoryHeaders].  On an article without a header map
    it panics, whatever the article.  On an article with one, and in
    whichever order the six defaults are ranged over: each of [Date],
    [From], [Message-Id], [Newsgroups], [Path] and [Subject] that is no
    key of the map, or a key without a value, gets its default, and these
    names are the ones logged; every other entry of the map is left as it
    is.  Afterwards each of the six names has a first value, and a second
    run changes nothing and logs nothing. *)
Theorem addMandatoryHeaders_supplies (ar : Couch.article) :
  (Couch.Headers ar = None →
   Couch.addMandatoryHeaders ar = None
   ∧ ∀ ks, ks ≠ [] → Couch.addMandatoryHeadersIn ks ar = None)
  ∧ (∀ m ks,
       Couch.Headers ar = Some m →
       ks ≡ₚ ["Date"; "From"; "Message-Id"; "Newsgroups"; "Path"; "Subject"] →
       ∃ m',
         let ar' := {| Couch.MsgID := Couch.MsgID ar; Couch.Headers := Some m';
                       Couch.Bytes := Couch.Bytes ar; Couch.Lines := Couch.Lines ar;
                       Couch.Added := Couch.Added ar |} in
         Couch.addMandatoryHeadersIn ks ar
         = Some (filter (fun k => m !! k = None ∨ m !! k = Some []) ks, ar')
         ∧ (∀ k, m' !! k
                 = if decide (k ∈ ["Date"; "From"; "Message-Id"; "Newsgroups"; "Path";
                                   "Subject"]
                              ∧ (m !! k = None ∨ m !! k = Some []))
                   then Couch.defaults ar !! k else m !! k)
         ∧ (∀ k, k ∈ ["Date"; "From"; "Message-Id"; "Newsgroups"; "Path"; "Subject"] →
                 ∃ v vs, m' !! k = Some (v :: vs))
         ∧ Couch.addMandatoryHeadersIn ks ar' = Some ([], ar')
         ∧ ∃ logged, Couch.addMandatoryHeaders ar = Some (logged, ar')).
Proof.
  split.
  - intros Hnil.
    assert (Hpanic : ∀ ks, ks ≠ [] → Couch.addMandatoryHeadersIn ks ar = None).
    { intros [|k ks] Hks; [done|]. unfold Couch.addMandatoryHeadersIn.
      by rewrite Hnil, supply_nil_map. }
    split; [|done]. unfold Couch.addMandatoryHeaders. apply Hpanic. intros Hk.
    pose proof (defaults_range ar) as Hperm. rewrite Hk in Hperm.
    by apply Permutation_nil_l in Hperm.
  - intros m ks Hm Hks.
    destruct (addMandatoryHeadersIn_map ar m ks Hm Hks) as (m' & Hrun & Hlook).
    exists m'. intros ar'.
    assert (Hfull : ∀ k, k ∈ ["Date"; "From"; "Message-Id"; "Newsgroups"; "Path"; "Subject"] →
                         ∃ v vs, m' !! k = Some (v :: vs)).
    { intros k Hk. rewrite Hlook.
      destruct (decide (_ ∧ _)) as [_|Hno].
      - destruct (defaults_values ar k Hk) as [v ->]. by exists v, [].
      - destruct (m !! k) as [[|v vs]|]; [| by exists v, vs |];
          destruct Hno; split; auto. }
    split; [done|]. split; [done|]. split; [done|]. split.
    + destruct (addMandatoryHeadersIn_map ar' m' ks eq_refl Hks) as (m'' & -> & Hlook').
      assert (m'' = m') as ->.
      { apply map_eq. intros k. rewrite Hlook'.
        destruct (decide (_ ∧ _)) as [[Hk Hmiss]|_]; [|done].
        destruct (Hfull k Hk) as (v & vs & Hv). rewrite Hv in Hmiss.
        by destruct Hmiss. }
      f_equal. f_equal. apply filter_none. intros k Hk.
      rewrite Hks in Hk. destruct (Hfull k Hk) as (v & vs & ->). by intros [|].
    + destruct (addMandatoryHeadersIn_map ar m _ Hm (defaults_range ar))
        as (m2 & Hrun2 & Hlook2).
      assert (m2 = m') as ->.
      { apply map_eq. intros k. by rewrite Hlook, Hlook2. }
      unfold Couch.addMandatoryHeaders. eexists. exact Hrun2.
Qed.

(** X20.  The headers of an article of the example server, as [HEAD]
    and [ARTICLE] send them.  After [addMandatoryHeaders] the header
    formatter panics exactly when a name other than the six mandatory
    ones is stored without a value; and when it does not, the first line
    it writes is the [Subject] line, with the stored subject or the
    default one. *)
Theorem couch_headers_sent (ar : Couch.article) m :
  Couch.Headers ar = Some m →
  ∃ logged m',
    Couch.addMandatoryHeaders ar
    = Some (logged, {| Couch.MsgID := Couch.MsgID ar; Couch.Headers := Some m';
                       Couch.Bytes := Couch.Bytes ar; Couch.Lines := Couch.Lines ar;
                       Couch.Added := Couch.Added ar |})
    ∧ (sendHeaders m' = None
       ↔ ∃ k, (k ∉ ["Date"; "From"; "Message-Id"; "Newsgroups"; "Path"; "Subject"])
              ∧ m !! k = Some [])
    ∧ (∀ chunks, sendHeaders m' = Some chunks →
         ∃ rest, chunks = (("Subject: " +:+ Nntp.Get m' "Subject" +:+ CRLF) :: rest)
                 ∧ Nntp.Get m' "Subject"
                   = (match m !! "Subject" with
                      | Some (v :: _) => v
                      | _ => "Unspecified Subject"
                      end)).
Proof.
  intros Hm.
  destruct (addMandatoryHeadersIn_map ar m _ Hm (defaults_range ar))
    as (m' & Hrun & Hlook).
  unfold Couch.addMandatoryHeaders. eexists _, m'. split; [exact Hrun|]. split.
  - rewrite sendHeaders_panics_iff. split.
    + intros [k Hk]. exists k. rewrite Hlook in Hk.
      destruct (decide (_ ∧ _)) as [[Hin _]|Hno].
      * destruct (defaults_values ar k Hin) as [v Hv]. rewrite Hv in Hk.
        discriminate Hk.
      * split; [|exact Hk]. intros Hin. apply Hno. split; [exact Hin|by right].
    + intros (k & Hout & Hk). exists k. rewrite Hlook.
      destruct (decide (_ ∧ _)) as [[Hin _]|_]; [by destruct Hout|exact Hk].
  - intros chunks Hsend.
    assert (Hall : map_Forall (fun _ vs => vs ≠ []) m').
    { intros k vs Hk ->. rewrite (sendHeaders_panics _ _ Hk) in Hsend. done. }
    rewrite sendHeaders_succeeds in Hsend by done. injection Hsend as <-.
    assert (Hsub : m' !! "Subject"
                   = Some (match m !! "Subject" with
                           | Some (v :: vs) => v :: vs
                           | _ => ["Unspecified Subject"]
                           end)).
    { rewrite Hlook. destruct (m !! "Subject") as [[|v vs]|] eqn:Hs.
      - by rewrite decide_True by (split; [by apply (bool_decide_unpack _)|by right]).
      - rewrite decide_False; [done|]. by intros [_ [|]].
      - by rewrite decide_True by (split; [by apply (bool_decide_unpack _)|by left]). }
    unfold order. rewrite filter_cons_True by (by rewrite Hsub).
    rewrite <- app_comm_cons. cbn [flat_map]. unfold Nntp.Get. rewrite Hsub.
    destruct (m !! "Subject") as [[|v vs]|]; cbn [default map app];
      eexists; split; reflexivity.
Qed.

(** ** The properties above on the demo server *)



Lemma backend_swapped_witness :
  let st0 := Demo.start true None ["AUTHINFO PASS secret"] in
  let st1 : State (B := bool) (W := bool) :=
    {| sess := {| backend := true; group := None |};
       conn := {| input := [];
                  output := [Line "350 Continue"; Line "250 authenticated"] |};
       world := true; log := [] |} in
  dispatchCommand (NewServer false) "AUTHINFO" ["USER"; "alice"] st0 = Done None st1
  ∧ (backend (sess st1) = backend (sess st0)
     ∨ (Strings.ToLower "AUTHINFO" = "authinfo" ∧ (None : option error) = None
        ∧ ∃ user pass w w2,
            Authenticate (backend (sess st0)) user pass w
            = (Ok (Some (backend (sess st1))), w2))).
Proof.
  intros st0 st1.
  assert (Hrun : dispatchCommand (NewServer false) "AUTHINFO" ["USER"; "alice"] st0
                 = Done None st1) by (vm_compute; reflexivity).
  split; [exact Hrun|].
  exact (backend_swapped_by_AUTHINFO_only false "AUTHINFO" ["USER"; "alice"] st0 None st1 Hrun).
Defined.


Lemma handleListGroup_single_number_witness :
  Strings.contains "5" "-" = false
  ∧ handleListGroup ["misc.test"; "5"] (Demo.start true None [])
    = Done (Some (NNTP ErrSyntax)) (Demo.start true None []).
Proof.
  split; [reflexivity|].
  exact (handleListGroup_refuses_single_number (Demo.start true None [])
           "misc.test" "5" [] eq_refl).
Defined.

Lemma handleAuthInfo_exchange_witness :
  let st := Demo.start true None ["AUTHINFO PASS secret"] in
  Strings.ToLower "USER" = "user"
  ∧ handleAuthInfo ["USER"; "alice"] st
    = Done None
        (swapping
           (sending
              (storing (leaving (sending (storing st true) [Line "350 Continue"]) []) true)
              [Line "250 authenticated"])
           true).
Proof.
  intros st. split; [reflexivity|].
  exact (proj2 (proj2 (proj2 (handleAuthInfo_exchange st "USER" "alice" [] eq_refl)))
           true "AUTHINFO PASS secret" [] "AUTHINFO" "PASS" "secret"
           eq_refl eq_refl eq_refl eq_refl eq_refl).
Defined.

Lemma lazyOpener_delivers_witness :
  let l := {| Couch.url := "http://couch/news/1%40demo/article";
              Couch.data := None; Couch.err := None |} in
  let d := [Byte.x6e; Byte.x6f; Byte.x0a] in
  Couch.data l = None ∧ Couch.err l = None
  ∧ Couch.Get (Couch.url l) 0%nat
    = (Couch.Answered 404 "404 Object Not Found" (Some d) None, 1%nat)
  ∧ [2; 5]%nat ≠ []
  ∧ Couch.drain [2; 5]%nat l 0%nat
    = (d, {| Couch.url := Couch.url l; Couch.data := Some []; Couch.err := None |}, 1%nat).
Proof.
  intros l d.
  split; [reflexivity|]. split; [reflexivity|]. split; [reflexivity|].
  split; [discriminate|].
  exact (proj1 (lazyOpener_delivers l [2; 5]%nat 0%nat 1%nat 404 "404 Object Not Found" d
                  eq_refl eq_refl eq_refl ltac:(discriminate))).
Defined.

Lemma couch_headers_sent_witness :
  Couch.Headers Couch.stored = Some (<["Subject" := []]> (<["X-Trace" := ["a"]]> ∅))
  ∧ ∃ logged m',
      Couch.addMandatoryHeaders Couch.stored
      = Some (logged, {| Couch.MsgID := "1@demo"; Couch.Headers := Some m';
                         Couch.Bytes := 3; Couch.Lines := 1;
                         Couch.Added := Couch.Added Couch.stored |})
      ∧ (sendHeaders m' = None
         ↔ ∃ k, (k ∉ ["Date"; "From"; "Message-Id"; "Newsgroups"; "Path"; "Subject"])
                ∧ (<["Subject" := []]> (<["X-Trace" := ["a"]]> ∅) : gmap string (list string))
                  !! k = Some [])
      ∧ (∀ chunks, sendHeaders m' = Some chunks →
           ∃ rest, chunks = (("Subject: " +:+ Nntp.Get m' "Subject" +:+ CRLF) :: rest)
                   ∧ Nntp.Get m' "Subject"
                     = (match (<["Subject" := []]> (<["X-Trace" := ["a"]]> ∅)
                               : gmap string (list string)) !! "Subject" with
                        | Some (v :: _) => v
                        | _ => "Unspecified Subject"
                        end)).
Proof.
  split; [reflexivity|].
  exact (couch_headers_sent Couch.stored _ eq_refl).
Defined.
